(** * pyfesom2.accessor: spatial selection on an unstructured triangular mesh

    A shallow embedding of [src/pyfesom2/accessor.py] and the properties of
    its selection functions ([select_bbox], [select_region], [select]) and of
    the distance helper [normalize_distance].

    - integer index arrays (numpy [intp]) are lists of [Z]; numpy's indexing
      with negative wrap-around and [IndexError] is written out;
    - a face array of shape [(nelem, 3)] is a list of triples;
    - Python exceptions and [warnings.warn] are carried by the [result] type;
    - coordinates and distances (finite Python floats) are the rationals they
      denote; the code compares them and divides distances by 1000, and
      otherwise hands them to the geometry library, which is kept behind the
      [Geometry] interface. *)

From Stdlib Require Import QArith Qround.
From stdpp Require Import base option list sorting gmap strings.

Open Scope Z_scope.

(** ** Exceptions and warnings *)

Inductive exn : Set :=
| ValueError
| IndexError
| TypeError
| NotImplementedError.

Inductive warning : Set :=
| NoPointsInRegion   (* 'No points in domain are within region, returning original data.' *)
| NoFacesInRegion.   (* "No found points for the region are contained in dataset's triangulation ..." *)

(** The outcome of a call: an exception, or a value together with the
    warnings emitted on the way. *)
Inductive result (A : Type) : Type :=
| Raise (e : exn)
| Return (ws : list warning) (a : A).
Arguments Raise {A} e.
Arguments Return {A} ws a.

(** Sequencing: the first exception aborts the call, warnings accumulate. *)
#[export] Instance result_bind : MBind result := λ A B k m,
  match m with
  | Raise e => Raise e
  | Return ws a =>
      match k a with
      | Raise e => Raise e
      | Return ws' b => Return (ws ++ ws') b
      end
  end.

#[export] Instance result_ret : MRet result := λ A a, Return [] a.

Definition warn (w : warning) : result unit := Return [w] tt.

(** [or_raise e o]: the value of [o], or exception [e] when there is none. *)
Definition or_raise {A} (e : exn) (o : option A) : result A :=
  match o with
  | Some a => mret a
  | None => Raise e
  end.

(** ** The numpy operations the module uses *)

Module Numpy.

(** [a[i]] on an axis of length [n]: [0 <= i < n] is position [i],
    [-n <= i < 0] wraps to [i + n], anything else is an [IndexError]. *)
Definition norm_index (n : nat) (i : Z) : option nat :=
  if decide (0 ≤ i < Z.of_nat n) then Some (Z.to_nat i)
  else if decide (- Z.of_nat n ≤ i < 0) then Some (Z.to_nat (i + Z.of_nat n))
  else None.

Definition getitem {A} (a : list A) (i : Z) : option A :=
  k ← norm_index (length a) i; a !! k.

(** [a[idx]] for an integer index array [idx]. *)
Definition take {A} (a : list A) (idx : list Z) : option (list A) :=
  mapM (getitem a) idx.

(** A face: one row of an [(nelem, 3)] integer array. *)
Definition face : Type := Z * Z * Z.

Definition face_map {A B} (f : A → B) (t : A * A * A) : B * B * B :=
  let '(a, b, c) := t in (f a, f b, f c).

Definition face_mapM {A B} (f : A → option B) (t : A * A * A) : option (B * B * B) :=
  let '(a, b, c) := t in
  x ← f a; y ← f b; z ← f c; Some (x, y, z).

(** [a[faces]] for an [(nelem, 3)] index array: same shape, entry by entry. *)
Definition take_faces {A} (a : list A) (faces : list face) : option (list (A * A * A)) :=
  mapM (face_mapM (getitem a)) faces.

(** [faces.ravel()]: row-major flattening. *)
Definition ravel {A} (faces : list (A * A * A)) : list A :=
  faces ≫= λ '(a, b, c), [a; b; c].

Fixpoint rows3 {A} (flat : list A) : list (A * A * A) :=
  match flat with
  | a :: b :: c :: rest => (a, b, c) :: rows3 rest
  | _ => []
  end.

(** [flat.reshape((nelem, 3))]: fails unless the sizes agree. *)
Definition reshape {A} (flat : list A) (nelem : nat) : option (list (A * A * A)) :=
  if decide (length flat = (nelem * 3)%nat) then Some (rows3 flat) else None.

(** [np.all(mask, axis=1)] on an [(nelem, 3)] boolean array. *)
Definition all_axis1 (mask : list (bool * bool * bool)) : list bool :=
  (λ '(a, b, c), a && b && c) <$> mask.

(** [a[mask]] for a boolean mask over the first axis. *)
Fixpoint compress {A} (mask : list bool) (a : list A) : list A :=
  match mask, a with
  | m :: mask', x :: a' => if m then x :: compress mask' a' else compress mask' a'
  | _, _ => []
  end.

Definition count_nonzero (mask : list bool) : nat :=
  length (filter (λ b, b = true) mask).

(** [np.unique(a)]: the values of [a], ascending, each once. *)
Fixpoint insert_unique (x : Z) (l : list Z) : list Z :=
  match l with
  | [] => [x]
  | y :: t =>
      if x <? y then x :: l
      else if x =? y then l
      else y :: insert_unique x t
  end.

Definition unique_values (a : list Z) : list Z :=
  foldr insert_unique [] a.

(** Position of [x] in [l] (the length of [l] when absent). *)
Fixpoint index_of (x : Z) (l : list Z) : nat :=
  match l with
  | [] => 0
  | y :: t => if x =? y then 0%nat else S (index_of x t)
  end.

(** [np.unique(a, return_inverse=True)]: the sorted unique values and,
    for every entry of [a], its position among them. *)
Definition unique (a : list Z) : list Z * list Z :=
  let uniq := unique_values a in
  (uniq, (λ x, Z.of_nat (index_of x uniq)) <$> a).

End Numpy.

Import Numpy.

(** ** Floats and the geometry library *)

(** A finite Python float, as the rational number it denotes. *)
Definition float : Type := Q.

Definition float_le (x y : float) : bool := Qle_bool x y.
Definition float_lt (x y : float) : bool := negb (Qle_bool y x).

(** The tolerance of [region.buffer(1e-6)], in degrees. *)
Definition buffer_tolerance : float := 1 # 1000000.

(** What the module uses of shapely: polygons, [box], [buffer] and the
    point-in-polygon test of [shapely.vectorized.contains] (a prepared
    geometry answers like the geometry it was prepared from). *)
Class Geometry := {
  polygon : Type;
  box : float → float → float → float → polygon;    (* box(minx, miny, maxx, maxy) *)
  buffer : polygon → float → polygon;                (* region.buffer(distance) *)
  contains : polygon → float → float → bool;         (* contains(region, x, y) *)
}.

(** An instance for rectangular regions: a rectangle grown by [pad] with
    rounded corners, which is what buffering a rectangle gives (shapely
    approximates the corner arcs by short segments; here they are exact).
    [contains] is true in the interior only, as in shapely. *)
Record rounded_rect : Type := RoundedRect {
  minx : float; miny : float; maxx : float; maxy : float; pad : float
}.

(** Distance from [x] to the interval [[lo, hi]] (zero inside). *)
Definition outside (lo hi x : float) : float :=
  if float_lt x lo then (lo - x)%Q
  else if float_lt hi x then (x - hi)%Q
  else 0%Q.

Definition rounded_rect_contains (r : rounded_rect) (x y : float) : bool :=
  if Qeq_bool (pad r) 0 then
    float_lt (minx r) x && float_lt x (maxx r) && float_lt (miny r) y && float_lt y (maxy r)
  else
    let dx := outside (minx r) (maxx r) x in
    let dy := outside (miny r) (maxy r) y in
    float_lt (dx * dx + dy * dy)%Q (pad r * pad r)%Q.

Definition RectGeometry : Geometry := {|
  polygon := rounded_rect;
  box := λ x0 y0 x1 y1, RoundedRect x0 y0 x1 y1 0%Q;
  buffer := λ r d, RoundedRect (minx r) (miny r) (maxx r) (maxy r) (pad r + d)%Q;
  contains := rounded_rect_contains;
|}.

(** ** The data container *)

(** [xr.Dataset] or [xr.DataArray]; a DataArray may be unnamed. *)
Inductive xr_kind : Set :=
| Dataset
| DataArray (name : option string).

(** One position of the node dimension [nod2]: its coordinates and whatever
    the data variables hold there. xarray keeps every variable along a
    dimension at the same length, so the container is a list of nodes. *)
Record node (V : Type) : Type := Node {
  node_lon : float;
  node_lat : float;
  node_val : V
}.
Arguments Node {V} _ _ _.
Arguments node_lon {V} _.
Arguments node_lat {V} _.
Arguments node_val {V} _.

Record xr_obj (V : Type) : Type := XrObj {
  kind : xr_kind;
  nod2 : list (node V);
  faces_coord : option (list face)     (* the 'faces' coordinate, dims (nelem, three) *)
}.
Arguments XrObj {V} _ _ _.
Arguments kind {V} _.
Arguments nod2 {V} _.
Arguments faces_coord {V} _.

(** [class SimpleMesh]: [x2], [y2], [elem]. *)
Record SimpleMesh : Type := MkSimpleMesh {
  x2 : list float;
  y2 : list float;
  elem : list face
}.

(** The [region] argument of [select_region], by its Python type. *)
Inductive region_arg `{G : Geometry} : Type :=
| RegionSeq (xs : list float)             (* a list or tuple of numbers *)
| RegionPolygon (p : polygon)             (* shapely Polygon *)
| RegionMultiPolygon (ps : list polygon). (* shapely MultiPolygon *)

Section Selection.
Context `{G : Geometry} {V : Type}.

Definition lon (o : xr_obj V) : list float := node_lon <$> nod2 o.
Definition lat (o : xr_obj V) : list float := node_lat <$> nod2 o.

(** [getattr(xr_obj, "faces", faces)] *)
Definition getattr_faces (o : xr_obj V) (faces : option (list face)) : option (list face) :=
  match faces_coord o with
  | Some f => Some f
  | None => faces
  end.

(** [xr_obj.isel(nod2=idx)]: positional selection along the node dimension;
    the faces coordinate does not depend on [nod2] and is kept. *)
Definition isel_nod2 (o : xr_obj V) (idx : list Z) : result (xr_obj V) :=
  nodes ← or_raise IndexError (take (nod2 o) idx);
  mret (XrObj (kind o) nodes (faces_coord o)).

(** [ret.to_dataset()], applied when [isinstance(xr_obj, xr.DataArray)];
    xarray refuses an unnamed DataArray. *)
Definition to_dataset (o : xr_obj V) : result (xr_obj V) :=
  match kind o with
  | Dataset => mret o
  | DataArray (Some _) => mret (XrObj Dataset (nod2 o) (faces_coord o))
  | DataArray None => Raise ValueError
  end.

(** [ret.drop_vars('faces')] when ['faces' in ret.coords] *)
Definition drop_faces (o : xr_obj V) : xr_obj V :=
  XrObj (kind o) (nod2 o) None.

(** [ret.assign_coords({'faces': (('nelem', 'three'), new_faces)})] *)
Definition assign_faces (o : xr_obj V) (new_faces : list face) : xr_obj V :=
  XrObj (kind o) (nod2 o) (Some new_faces).

(** The compaction shared by both selections:
    [uniq, inv_index = np.unique(cut_faces.ravel(), return_inverse=True)]
    [new_faces = inv_index.reshape(cut_faces.shape)] *)
Definition reindex_faces (cut_faces : list face) : result (list Z * list face) :=
  let '(uniq, inv_index) := unique (ravel cut_faces) in
  new_faces ← or_raise ValueError (reshape inv_index (length cut_faces));
  mret (uniq, new_faces).

Section BBox.
(** [cut_region] of [pyfesom2/ut.py]: called with the mesh and
    [[xmin, xmax, ymin, ymax]], returns the faces cut and a mask. *)
Variable cut_region : SimpleMesh → list float → result (list face * list bool).

Definition select_bbox (o : xr_obj V) (bbox : list float) (faces : option (list face))
  : result (xr_obj V) :=
  match getattr_faces o faces with
  | None => Raise ValueError
  | Some faces =>
      let mesh := MkSimpleMesh (lon o) (lat o) faces in
      b0 ← or_raise IndexError (getitem bbox 0);
      b2 ← or_raise IndexError (getitem bbox 2);
      b1 ← or_raise IndexError (getitem bbox 1);
      b3 ← or_raise IndexError (getitem bbox 3);
      cut ← cut_region mesh [b0; b2; b1; b3];
      '(uniq, new_faces) ← reindex_faces cut.1;
      r ← isel_nod2 o uniq;
      r ← to_dataset r;
      mret (assign_faces r new_faces)
  end.
End BBox.

(** The region test of [select_region]: a bounding box of four numbers
    becomes a rectangle, a Polygon is taken as it is, anything else is
    refused. *)
Definition region_polygon (region : region_arg) : result polygon :=
  match region with
  | RegionSeq [x0; y0; x1; y1] => mret (box x0 y0 x1 y1)
  | RegionPolygon p => mret p
  | _ => Raise ValueError
  end.

(** The point-in-polygon test at a node, and the test the code applies:
    the one against [region.buffer(1e-6)]. *)
Definition inside (p : polygon) (n : node V) : bool :=
  contains p (node_lon n) (node_lat n).

Definition inside_buffered (p : polygon) (n : node V) : bool :=
  inside (buffer p buffer_tolerance) n.

(** [vectorized_contains(prep(region.buffer(1e-6)), lon, lat)] *)
Definition node_selection (p : polygon) (o : xr_obj V) : list bool :=
  inside_buffered p <$> nod2 o.

Definition select_region (o : xr_obj V) (region : region_arg) (faces : option (list face))
  : result (xr_obj V) :=
  p ← region_polygon region;
  match getattr_faces o faces with
  | None => Raise ValueError
  | Some faces =>
      let selection := node_selection p o in
      if decide (count_nonzero selection = 0%nat) then
        _ ← warn NoPointsInRegion;
        mret o
      else
        sel ← or_raise IndexError (take_faces selection faces);
        let face_mask := all_axis1 sel in
        let cut_faces := compress face_mask faces in
        '(uniq, new_faces) ← reindex_faces cut_faces;
        r ← isel_nod2 o uniq;
        let r := drop_faces r in
        if decide (length uniq = 0%nat) then
          _ ← warn NoFacesInRegion;
          mret r
        else
          r ← to_dataset r;
          mret (assign_faces r new_faces)
  end.

End Selection.

(** Modelled from the spec: [cut_region] of [pyfesom2/ut.py], which
    [select_bbox] imports and which is not part of the sources at hand.
    Spec 4.4: "a face is kept only if all three of its vertices satisfy the
    box bounds". The bounds arrive as [[xmin, xmax, ymin, ymax]] and are
    taken inclusive; the second component is the mask over the faces. *)
Definition cut_region (mesh : SimpleMesh) (bounds : list float)
  : result (list face * list bool) :=
  match bounds with
  | [xmin; xmax; ymin; ymax] =>
      let selection :=
        zip_with (λ x y, float_le xmin x && float_le x xmax
                         && float_le ymin y && float_le y ymax)
                 (x2 mesh) (y2 mesh) in
      sel ← or_raise IndexError (take_faces selection (elem mesh));
      let mask := all_axis1 sel in
      mret (compress mask (elem mesh), mask)
  | _ => Raise ValueError
  end.

(** ** The dispatcher *)

(** Values passed as keyword indexers or inside a path dictionary. *)
Inductive pyval : Type :=
| PyNone
| PyArray (a : list float)                  (* a number or an array of numbers *)
| PySlice (start stop : option float).      (* slice(start, stop) *)

Definition is_not_None (v : pyval) : bool :=
  match v with
  | PyNone => false
  | _ => true
  end.

Definition is_slice (v : pyval) : bool :=
  match v with
  | PySlice _ _ => true
  | _ => false
  end.

(** The [path] argument of [select], by its Python type. *)
Inductive path_arg : Type :=
| PathSeq (cols : list (list float))        (* a list or tuple of coordinate arrays *)
| PathLineString (pts : list (float * float)) (* shapely 2D LineString *)
| PathDict (d : gmap string pyval)          (* mapping from dimension to coordinates *)
| PathOther.                                (* any other object *)

Section Dispatch.
Context `{G : Geometry} {V : Type}.

(** The k-d tree handed down by the accessors; built by scipy. *)
Variable tree : Type.

(** [select_points(xrobj, lon, lat, method, tolerance, tree, return_distance,
    other_dims)] (lines 196-245): nearest-node lookup through cartopy and
    scipy. The dispatcher is verified for whatever it computes. *)
Variable select_points :
  xr_obj V → pyval → pyval → string → option float → option tree → bool →
  gmap string pyval → result (xr_obj V).

(** xarray's [obj.sel] with keyword indexers and [method]. *)
Variable xr_sel : xr_obj V → gmap string pyval → option string → result (xr_obj V).

(** [indexers.pop(key, None)]: the value and the remaining indexers. *)
Definition pop (key : string) (indexers : gmap string pyval) : pyval * gmap string pyval :=
  (default PyNone (indexers !! key), delete key indexers).

(** The [elif path is not None] branch. *)
Definition select_path (o : xr_obj V) (method : string) (tolerance : option float)
    (tr : option tree) (path : path_arg) : result (xr_obj V) :=
  match path with
  | PathSeq cols =>
      match cols with
      | [lons; lats] =>
          if decide (length lons = length lats)
          then select_points o (PyArray lons) (PyArray lats) method tolerance tr true ∅
          else Raise ValueError
      | _ => Raise ValueError
      end
  | PathLineString pts =>
      select_points o (PyArray pts.*1) (PyArray pts.*2) method tolerance tr true ∅
  | PathDict d =>
      match d !! "lon", d !! "lat" with
      | Some lons, Some lats =>
          select_points o lons lats method tolerance tr true (delete "lat" (delete "lon" d))
      | _, _ => Raise TypeError
      end
  | PathOther => Raise ValueError
  end.

(** The tail of [select]: slice indexers first and without [method], then
    the remaining indexers with [method]. *)
Definition apply_indexers (r : xr_obj V) (method : string) (indexers : gmap string pyval)
  : result (xr_obj V) :=
  let slice_indexers := filter (λ kv, is_slice kv.2 = true) indexers in
  r ← (if decide (slice_indexers = ∅) then mret r else xr_sel r slice_indexers None);
  xr_sel r (filter (λ kv, is_slice kv.2 = false) indexers) (Some method).

Definition select (o : xr_obj V) (method : string) (tolerance : option float)
    (region : option region_arg) (path : option path_arg) (tr : option tree)
    (indexers : gmap string pyval) : result (xr_obj V) :=
  let '(lat, indexers) := pop "lat" indexers in
  let '(lon, indexers) := pop "lon" indexers in
  let lat_indexer := is_not_None lat in
  let lon_indexer := is_not_None lon in
  if (lat_indexer || lon_indexer) && (bool_decide (is_Some region) || bool_decide (is_Some path))
  then Raise ValueError
  else
    ret_arr ←
      (if lat_indexer || lon_indexer then
         if lat_indexer && lon_indexer then
           if decide (method = "nearest")
           then select_points o lon lat method tolerance tr false ∅
           else Raise NotImplementedError
         else Raise ValueError
       else
         match region, path with
         | Some region, _ => select_region o region None
         | None, Some path => select_path o method tolerance tr path
         | None, None => mret o
         end);
    apply_indexers ret_arr method indexers.

End Dispatch.

(** ** Distances *)

(** A float array of rank 1 or 2, the ranks [distance_along_trajectory]
    produces and hands to [normalize_distance]. *)
Inductive ndarray : Type :=
| Array1 (v : list float)
| Array2 (rows : list (list float)).

(** [a.shape[0]] *)
Definition shape0 (a : ndarray) : nat :=
  match a with
  | Array1 v => length v
  | Array2 rows => length rows
  end.

(** All entries, row by row. *)
Definition entries (a : ndarray) : list float :=
  match a with
  | Array1 v => v
  | Array2 rows => concat rows
  end.

(** [f] applied entry by entry. *)
Definition array_map (f : float → float) (a : ndarray) : ndarray :=
  match a with
  | Array1 v => Array1 (map f v)
  | Array2 rows => Array2 (map (map f) rows)
  end.

Definition normalize_distance (distance_array_in_m : ndarray) : string * ndarray :=
  let distance_array_in_km := array_map (λ x, x / 1000)%Q distance_array_in_m in
  let len_array := shape0 distance_array_in_m in
  if decide (len_array `div` 3 <
             count_nonzero ((λ x, float_lt x 1%Q) <$> entries distance_array_in_km))%nat
  then ("m", distance_array_in_m)
  else ("km", distance_array_in_km).

(** ** Vocabulary of the statements *)

Section Vocabulary.
Context `{G : Geometry} {V : Type}.

(** A triangle: the three nodes a face refers to. *)
Definition triangle : Type := node V * node V * node V.

(** The triangles of the faces [fs] over the nodes of [o], read with numpy's
    indexing; [None] when an index is out of bounds. *)
Definition triangles (o : xr_obj V) (fs : list face) : option (list triangle) :=
  take_faces (nod2 o) fs.

Definition triangle_all {A} (P : A → bool) (t : A * A * A) : bool :=
  let '(a, b, c) := t in P a && P b && P c.

(** Every entry of every face is an index in [[0, n)]. *)
Definition faces_in_range (n : nat) (fs : list face) : Prop :=
  Forall (λ '(a, b, c), (0 ≤ a < Z.of_nat n) ∧ (0 ≤ b < Z.of_nat n) ∧ (0 ≤ c < Z.of_nat n)) fs.

(** The faces coordinate of [o], when there is one, refers to nodes of [o]
    only. *)
Definition faces_valid (o : xr_obj V) : Prop :=
  ∀ fs, faces_coord o = Some fs → faces_in_range (length (nod2 o)) fs.

(** Every face of [o] has its three vertices among the nodes of [o], and all
    three satisfy [P]. *)
Definition face_vertices_satisfy (P : node V → bool) (o : xr_obj V) : Prop :=
  ∀ fs f, faces_coord o = Some fs → f ∈ fs →
    ∃ t, face_mapM (getitem (nod2 o)) f = Some t ∧ triangle_all P t = true.

(** [r] is a compaction of [o]: its nodes are the nodes of [o] at an
    ascending, duplicate-free list of [K] indices, and its faces, when it has
    any, hold indices in [[0, K)] only. *)
Definition compaction_of (o r : xr_obj V) : Prop :=
  ∃ uniq,
    StronglySorted Z.lt uniq ∧
    take (nod2 o) uniq = Some (nod2 r) ∧
    ∀ fs, faces_coord r = Some fs → faces_in_range (length uniq) fs.

(** A node within the inclusive bounds of a box. *)
Definition inside_bounds (xmin ymin xmax ymax : float) (n : node V) : bool :=
  float_le xmin (node_lon n) && float_le (node_lon n) xmax
  && float_le ymin (node_lat n) && float_le (node_lat n) ymax.

(** An indexer counts as supplied when it is present and not [None]. *)
Definition supplied (indexers : gmap string pyval) (key : string) (v : pyval) : Prop :=
  indexers !! key = Some v ∧ v ≠ PyNone.

Definition not_supplied (indexers : gmap string pyval) (key : string) : Prop :=
  indexers !! key = None ∨ indexers !! key = Some PyNone.

End Vocabulary.

(** The number of entries of a distance array, and how many of them are
    below one kilometre. *)
Definition size (a : ndarray) : nat := length (entries a).

Definition below_1km (a : ndarray) : nat :=
  count_nonzero ((λ x, float_lt x 1000%Q) <$> entries a).

(** More than one third of the entries are below one kilometre. *)
Definition mostly_below_1km (a : ndarray) : Prop :=
  (size a < 3 * below_1km a)%nat.

(** ** A small mesh to run the code on *)

Module Example.

Definition at_ (x y : Q) : node unit := Node x y tt.

(** Five nodes: one far away, three inside the unit square and one half a
    tolerance to the right of its right edge. Three triangles. *)
Definition mesh_nodes : list (node unit) :=
  [at_ 5 5; at_ (1 # 2) (1 # 2); at_ (1 # 5) (1 # 5); at_ (7 # 10) (3 # 10);
   at_ (10000005 # 10000000) (1 # 2)].

Definition mesh_faces : list face := [(1, 2, 3); (1, 3, 4); (3, 4, 0)].

Definition mesh : xr_obj unit := XrObj Dataset mesh_nodes (Some mesh_faces).

(** The same nodes with the one triangle that reaches the far node. *)
Definition fragmented : xr_obj unit := XrObj Dataset mesh_nodes (Some [(3, 4, 0)]).

Definition unit_square : list float := [0; 0; 1; 1]%Q.
Definition far_square : list float := [10; 10; 11; 11]%Q.

(** The rectangles [box] makes of them. *)
Definition unit_box : rounded_rect := (RoundedRect 0 0 1 1 0)%Q.
Definition far_box : rounded_rect := (RoundedRect 10 10 11 11 0)%Q.

(** What [select_region] returns on [mesh] and the unit square. *)
Definition region_result : xr_obj unit :=
  XrObj Dataset
    [at_ (1 # 2) (1 # 2); at_ (1 # 5) (1 # 5); at_ (7 # 10) (3 # 10);
     at_ (10000005 # 10000000) (1 # 2)]
    (Some [(0, 1, 2); (0, 2, 3)]).

(** What [select_bbox] returns on [mesh] and the unit square. *)
Definition bbox_result : xr_obj unit :=
  XrObj Dataset
    [at_ (1 # 2) (1 # 2); at_ (1 # 5) (1 # 5); at_ (7 # 10) (3 # 10)]
    (Some [(0, 1, 2)]).

(** Stand-ins for the point lookup and for xarray's label selection, to run
    the dispatcher: the lookup answers with the first node whatever the
    query, [sel] keeps the object. *)
Definition first_node : xr_obj unit → pyval → pyval → string → option float →
    option unit → bool → gmap string pyval → result (xr_obj unit) :=
  λ o _ _ _ _ _ _ _, mret (XrObj (kind o) (firstn 1 (nod2 o)) None).

Definition sel_all : xr_obj unit → gmap string pyval → option string → result (xr_obj unit) :=
  λ o _ _, mret o.

Definition a_path : path_arg := PathSeq [[0; 1]; [0; 1]]%Q.

Definition lon_and_lat : gmap string pyval :=
  <["lon" := PyArray [1 # 2]]> (<["lat" := PyArray [1 # 2]]> ∅).

Definition lat_only : gmap string pyval := <["lat" := PyArray [1 # 2]]> ∅.

Definition two_squares : region_arg (G := RectGeometry) :=
  RegionMultiPolygon [box 0 0 1 1; box 2 2 3 3]%Q.

(** The distances of one trajectory of four points, as the rank-2 array
    [distance_along_trajectory] makes of rank-2 coordinates. *)
Definition one_trajectory : ndarray := Array2 [[500; 5000; 5000; 5000]]%Q.

End Example.

(** ** Further vocabulary *)

(** The faces use every index in [[0, n)]: no node is left without a face. *)
Definition faces_cover (n : nat) (fs : list face) : Prop :=
  ∀ k, (k < n)%nat → Z.of_nat k ∈ ravel fs.

(** ** Distances along a trajectory *)

(** The coordinates handed to [distance_along_trajectory], after
    [np.array(..., ndmin=1)]: longitudes and latitudes of the same rank. *)
Inductive trajectory : Type :=
| Track (lons lats : list float)             (* rank 1 *)
| Tracks (lons lats : list (list float))     (* rank 2, one trajectory per row *)
| TracksHigher.                              (* [lons] of rank 3 or more *)

(** [np.cumsum], with the exact sum of the rationals where float64 rounds
    each partial sum; [cumsum_with] below leaves the addition open. *)
Fixpoint cumsum_from (acc : float) (a : list float) : list float :=
  match a with
  | [] => []
  | x :: a' => (acc + x)%Q :: cumsum_from (acc + x)%Q a'
  end.

Definition cumsum (a : list float) : list float :=
  match a with
  | [] => []
  | x :: a' => x :: cumsum_from x a'
  end.

Section Trajectory.
(** The first column of cartopy's [Geodesic().inverse]: the geodesic
    distance in metres from one [(lon, lat)] point to another. *)
Variable geod_inverse : float * float → float * float → float.

(** The distances along the rows of [points]: zero at the first point,
    then [dists[1:] = np.cumsum(temp_dist)] with [temp_dist] the distances
    from [points[0:-1]] to [points[1:]]. *)
Definition along (points : list (float * float)) : list float :=
  match points with
  | [] => []
  | _ :: rest => 0%Q :: cumsum (zip_with geod_inverse points rest)
  end.

(** One trajectory; [np.c_[lons, lats]] needs columns of one length. *)
Definition track_distances (lons lats : list float) : result (list float) :=
  if decide (length lons = length lats)
  then mret (along (zip lons lats))
  else Raise ValueError.

(** The loop over [zip(lons, lats)]: rows of [dists = np.zeros(lons.shape)]
    that the loop does not reach stay zero. *)
Fixpoint tracks_distances (lons lats : list (list float)) : result (list (list float)) :=
  match lons, lats with
  | [], _ => mret []
  | _ :: _, [] => mret ((λ row, replicate (length row) 0%Q) <$> lons)
  | _lons :: lons', _lats :: lats' =>
      d ← track_distances _lons _lats;
      ds ← tracks_distances lons' lats';
      mret (d :: ds)
  end.

Definition distance_along_trajectory (t : trajectory) : result ndarray :=
  match t with
  | TracksHigher => Raise NotImplementedError
  | Track lons lats => d ← track_distances lons lats; mret (Array1 d)
  | Tracks lons lats => ds ← tracks_distances lons lats; mret (Array2 ds)
  end.

End Trajectory.

(** [np.cumsum] accumulates from left to right and, on float64, rounds
    every partial sum: [out[0] = a[0]] and [out[i] = add out[i-1] a[i]],
    with [add] the addition of the floats. [cumsum] is this accumulation
    with the exact sum for [add]. *)
Section Rounding.
Variable add : float → float → float.
Variable geod_inverse : float * float → float * float → float.

Fixpoint cumsum_from_with (acc : float) (a : list float) : list float :=
  match a with
  | [] => []
  | x :: a' => add acc x :: cumsum_from_with (add acc x) a'
  end.

Definition cumsum_with (a : list float) : list float :=
  match a with
  | [] => []
  | x :: a' => x :: cumsum_from_with x a'
  end.

(** [along] and [track_distances], the rank-1 branch of
    [distance_along_trajectory], accumulating with [add]. *)
Definition along_with (points : list (float * float)) : list float :=
  match points with
  | [] => []
  | _ :: rest => 0%Q :: cumsum_with (zip_with geod_inverse points rest)
  end.

Definition track_distances_with (lons lats : list float) : result (list float) :=
  if decide (length lons = length lats)
  then mret (along_with (zip lons lats))
  else Raise ValueError.

End Rounding.

(** The rows of an array: an array of rank 1 is one row. *)
Definition rows_of (a : ndarray) : list (list float) :=
  match a with
  | Array1 v => [v]
  | Array2 rows => rows
  end.

(** A row of distances starts at zero, and never decreases. *)
Definition starts_at_zero (d : list float) : Prop :=
  d = [] ∨ d !! 0%nat = Some 0%Q.

Definition nondecreasing (d : list float) : Prop :=
  ∀ k x y, d !! k = Some x → d !! S k = Some y → (x <= y)%Q.

(** ** Nearest-node lookup *)

(** What [select_points] returns: the object selected and, when asked for,
    the ['distance'] coordinate along the points with its unit. *)
Record point_selection (V : Type) : Type := PointSelection {
  selected : xr_obj V;
  distance : option (string * ndarray)
}.
Arguments PointSelection {V} _ _.
Arguments selected {V} _.
Arguments distance {V} _.

Section Points.
Context {V : Type}.

(** scipy's k-d tree over the geocentric coordinates of the nodes:
    [cKDTree(transform_points(src_lons, src_lats), ...)], and
    [tree.query(transform_points(lon, lat))], the indices found. *)
Variable tree : Type.
Variable build_tree : list float → list float → tree.
Variable tree_query : tree → list float → list float → list Z.

(** xarray's [obj.sel] with keyword indexers and [method]. *)
Variable xr_sel : xr_obj V → gmap string pyval → option string → result (xr_obj V).

Variable geod_inverse : float * float → float * float → float.

(** The sizes of [lon], [lat] and the other dimensions, as a set. *)
Definition set_len_dims (lons lats : list float) (other_dims : gmap string (list float))
  : gset nat :=
  list_to_set (length lons :: length lats :: (length <$> (map_to_list other_dims).*2)).

(** [select_points] for queries given as arrays of rank 1 (then the
    selection dimension is the one dimension of the result). *)
Definition select_points (xrobj : xr_obj V) (lons lats : list float) (method : string)
    (tolerance : option float) (tr : option tree) (return_distance : bool)
    (other_dims : gmap string (list float)) : result (point_selection V) :=
  if decide (1 < base.size (set_len_dims lons lats other_dims))%nat then Raise ValueError
  else if decide (method = "nearest") then
    let tr := match tr with
              | None => build_tree (lon xrobj) (lat xrobj)
              | Some t => t
              end in
    match tolerance with
    | Some _ => Raise NotImplementedError
    | None =>
        let ind := tree_query tr lons lats in
        ret_obj ← isel_nod2 xrobj ind;
        ret_obj ← xr_sel ret_obj (PyArray <$> other_dims) (Some method);
        let ret_obj := drop_faces ret_obj in
        if return_distance then
          dist ← distance_along_trajectory geod_inverse (Track lons lats);
          mret (PointSelection ret_obj (Some (normalize_distance dist)))
        else mret (PointSelection ret_obj None)
    end
  else Raise NotImplementedError.

(** [class FESOMDataset]: the dataset and the tree it caches (the
    attributes it sets for the data variables are left out). *)
Record FESOMDataset : Type := MkFESOMDataset {
  _xrobj : xr_obj V;
  _tree_obj : option tree
}.

(** [FESOMDataset.__init__] *)
Definition FESOMDataset_init (xr_dataset : xr_obj V) : FESOMDataset :=
  MkFESOMDataset xr_dataset None.

(** [FESOMDataset._build_tree]: the tree, and the accessor holding it. *)
Definition _build_tree (self : FESOMDataset) : tree * FESOMDataset :=
  let t := build_tree (lon (_xrobj self)) (lat (_xrobj self)) in
  (t, MkFESOMDataset (_xrobj self) (Some t)).

(** The property [FESOMDataset._tree]. *)
Definition _tree (self : FESOMDataset) : tree * FESOMDataset :=
  match _tree_obj self with
  | Some t => (t, self)
  | None => _build_tree self
  end.

(** [FESOMDataset.select_points] *)
Definition FESOMDataset_select_points (self : FESOMDataset) (lons lats : list float)
    (method : string) (tolerance : option float) (other_dims : gmap string (list float))
  : result (point_selection V) * FESOMDataset :=
  let '(t, self) := _tree self in
  (select_points (_xrobj self) lons lats method tolerance (Some t) true other_dims, self).

(** The tree an accessor holds, if any, is the tree of its dataset. *)
Definition tree_coherent (self : FESOMDataset) : Prop :=
  ∀ t, _tree_obj self = Some t → t = build_tree (lon (_xrobj self)) (lat (_xrobj self)).

(** The lengths of the query agree. *)
Definition same_length (lons lats : list float) (other_dims : gmap string (list float))
  : Prop :=
  length lats = length lons ∧ map_Forall (λ _ v, length v = length lons) other_dims.

End Points.

(** Stand-ins to run the lookup: every step of a trajectory is one
    kilometre long, and the tree answers with node 0 for every point. *)
Module Sample.

Definition one_km : float * float → float * float → float := λ _ _, 1000%Q.

Definition unit_tree : list float → list float → unit := λ _ _, tt.

Definition node0 : unit → list float → list float → list Z :=
  λ _ lons _, (λ _, 0) <$> lons.

(** A third of a kilometre from any point to any other, and an addition
    that rounds down to whole metres. *)
Definition third_of_km : float * float → float * float → float := λ _ _, (1000 # 3)%Q.

Definition add_floor (x y : float) : float := inject_Z (Qfloor (x + y)).

Definition three_lons : list float := [0; 1; 2]%Q.
Definition three_lats : list float := [0; 0; 0]%Q.

(** The example mesh without its faces, and as an unnamed DataArray. *)
Definition bare : xr_obj unit := XrObj Dataset Example.mesh_nodes None.

Definition unnamed : xr_obj unit :=
  XrObj (DataArray None) Example.mesh_nodes (Some Example.mesh_faces).

Definition three_columns : path_arg := PathSeq [[0]; [0]; [0]]%Q.

Definition time_only : gmap string pyval := {["time" := PyArray [1%Q]]}.

(** The lookup of three points on the example mesh, with distances. *)
Definition lookup : result (point_selection unit) :=
  select_points unit unit_tree node0 Example.sel_all one_km
    Example.mesh three_lons three_lats "nearest" None None true ∅.

End Sample.

(** * Properties *)

(** ** numpy: indexing, [np.unique], [ravel] and [reshape] *)

Section NumpyFacts.

Lemma norm_index_nonneg n i :
  0 ≤ i < Z.of_nat n → norm_index n i = Some (Z.to_nat i).
Proof. intros Hi. unfold norm_index. by rewrite decide_True. Qed.

Lemma getitem_of_nat {A} (a : list A) (k : nat) :
  (k < length a)%nat → getitem a (Z.of_nat k) = a !! k.
Proof.
  intros Hk. unfold getitem.
  rewrite norm_index_nonneg by lia. simpl. by rewrite Nat2Z.id.
Qed.

Lemma getitem_fmap {A B} (f : A → B) (a : list A) i :
  getitem (f <$> a) i = f <$> getitem a i.
Proof.
  unfold getitem. rewrite length_fmap.
  destruct (norm_index _ _); simpl; [apply list_lookup_fmap | done].
Qed.

Lemma insert_unique_elem x y l : y ∈ insert_unique x l ↔ y = x ∨ y ∈ l.
Proof.
  induction l as [|z l IH]; simpl.
  - rewrite list_elem_of_singleton, elem_of_nil. tauto.
  - destruct (Z.ltb_spec x z); [by rewrite elem_of_cons|].
    destruct (Z.eqb_spec x z) as [->|].
    + rewrite elem_of_cons. tauto.
    + rewrite !elem_of_cons, IH. tauto.
Qed.

Lemma insert_unique_sorted x l :
  StronglySorted Z.lt l → StronglySorted Z.lt (insert_unique x l).
Proof.
  induction 1 as [|z l Hl IH Hz]; simpl.
  - repeat constructor.
  - destruct (Z.ltb_spec x z).
    + constructor; [by constructor|].
      constructor; [done|]. eapply Forall_impl; [exact Hz|]. simpl. lia.
    + destruct (Z.eqb_spec x z); [by constructor|].
      constructor; [done|]. apply Forall_forall. intros y Hy.
      apply insert_unique_elem in Hy as [->|Hy]; [lia|].
      by eapply Forall_forall in Hz.
Qed.

Lemma unique_values_elem x a : x ∈ unique_values a ↔ x ∈ a.
Proof.
  induction a as [|y a IH]; simpl; [done|].
  rewrite insert_unique_elem, elem_of_cons, IH. done.
Qed.

Lemma unique_values_sorted a : StronglySorted Z.lt (unique_values a).
Proof.
  induction a; simpl; [constructor | by apply insert_unique_sorted].
Qed.

Lemma index_of_lookup x l : x ∈ l → l !! index_of x l = Some x.
Proof.
  induction 1 as [x l|x y l Hx IH]; simpl.
  - by rewrite Z.eqb_refl.
  - destruct (Z.eqb_spec x y) as [->|]; done.
Qed.

Lemma index_of_lt x l : x ∈ l → (index_of x l < length l)%nat.
Proof. intros Hx. eapply lookup_lt_Some, index_of_lookup, Hx. Qed.

Lemma getitem_index_of x l : x ∈ l → getitem l (Z.of_nat (index_of x l)) = Some x.
Proof.
  intros Hx. rewrite getitem_of_nat by by apply index_of_lt.
  by apply index_of_lookup.
Qed.

Lemma length_ravel {A} (fs : list (A * A * A)) : length (ravel fs) = (length fs * 3)%nat.
Proof.
  induction fs as [|[[a b] c] fs IH]; [done|].
  unfold ravel in *. rewrite bind_cons. simpl. by rewrite IH.
Qed.

Lemma elem_of_ravel {A} (fs : list (A * A * A)) x :
  x ∈ ravel fs ↔ ∃ a b c, (a, b, c) ∈ fs ∧ (x = a ∨ x = b ∨ x = c).
Proof.
  unfold ravel. rewrite list_elem_of_bind. split.
  - intros [[[a b] c] [Hx Hf]]. exists a, b, c. split; [done|].
    rewrite !elem_of_cons, elem_of_nil in Hx. tauto.
  - intros (a & b & c & Hf & Hx). exists (a, b, c). split; [|done].
    rewrite !elem_of_cons. tauto.
Qed.

Lemma rows3_fmap_ravel {A B} (g : A → B) (fs : list (A * A * A)) :
  rows3 (g <$> ravel fs) = face_map g <$> fs.
Proof.
  induction fs as [|[[a b] c] fs IH]; [done|].
  unfold ravel in *. rewrite bind_cons, fmap_app. simpl. by rewrite IH.
Qed.

(** What [reindex_faces] returns: it never fails, the node list is the
    sorted unique values and each entry is replaced by its position. *)
Lemma reindex_faces_eq (cut_faces : list face) :
  reindex_faces cut_faces =
    Return [] (unique_values (ravel cut_faces),
               face_map (λ x, Z.of_nat (index_of x (unique_values (ravel cut_faces))))
                 <$> cut_faces).
Proof.
  unfold reindex_faces, unique, reshape.
  rewrite decide_True by (by rewrite length_fmap, length_ravel).
  simpl. by rewrite rows3_fmap_ravel.
Qed.

Lemma take_faces_Some {A} (a : list A) (fs : list face) (vs : list (A * A * A)) :
  take_faces a fs = Some vs ↔
  Forall2 (λ f v, face_mapM (getitem a) f = Some v) fs vs.
Proof. unfold take_faces. apply mapM_Some. Qed.

End NumpyFacts.

(** ** Exceptions and warnings: inversion of a successful call *)

Lemma bind_Return {A B} (m : result A) (k : A → result B) ws b :
  m ≫= k = Return ws b ↔
  ∃ ws1 a ws2, m = Return ws1 a ∧ k a = Return ws2 b ∧ ws = ws1 ++ ws2.
Proof.
  unfold mbind, result_bind. split.
  - destruct m as [e|ws1 a]; [done|].
    destruct (k a) as [e|ws2 b'] eqn:Hk; [done|].
    intros [= <- <-]. by exists ws1, a, ws2.
  - intros (ws1 & a & ws2 & -> & Hk & ->). by rewrite Hk.
Qed.

Lemma bind_Return_nil {A B} (k : A → result B) a : Return [] a ≫= k = k a.
Proof. unfold mbind, result_bind. by destruct (k a). Qed.

Lemma or_raise_Return {A} e (o : option A) ws a :
  or_raise e o = Return ws a ↔ o = Some a ∧ ws = [].
Proof.
  unfold or_raise, mret, result_ret. destruct o; split.
  - by intros [= <- <-].
  - by intros [[= ->] ->].
  - done.
  - by intros [? _].
Qed.

Lemma or_raise_Some {A} e (a : A) : or_raise e (Some a) = Return [] a.
Proof. done. Qed.

Lemma mret_Return {A} (a b : A) ws : mret a = Return ws b ↔ a = b ∧ ws = [].
Proof.
  unfold mret, result_ret. split; [by intros [= <- <-] | by intros [-> ->]].
Qed.

(** ** Compaction *)

Section Compaction.
Context {A : Type}.

Lemma take_Some (a : list A) (idx : list Z) (vs : list A) :
  take a idx = Some vs ↔ Forall2 (λ i v, getitem a i = Some v) idx vs.
Proof. unfold take. apply mapM_Some. Qed.

(** After [b = a[uniq]], position [k] of [b] holds what [uniq[k]] refers to
    in [a]. *)
Lemma getitem_take (a b : list A) (uniq : list Z) x :
  take a uniq = Some b → x ∈ uniq →
  getitem b (Z.of_nat (index_of x uniq)) = getitem a x ∧ is_Some (getitem a x).
Proof.
  intros Ht Hx. apply take_Some in Ht.
  pose proof (index_of_lookup x uniq Hx) as Hk.
  destruct (Forall2_lookup_l _ _ _ _ _ Ht Hk) as (v & Hv & Hav).
  rewrite getitem_of_nat by (by eapply lookup_lt_Some).
  rewrite Hv, Hav. eauto.
Qed.

(** The faces remapped by [reindex_faces], read over the compacted nodes,
    are the faces cut, read over the original nodes. *)
Lemma take_faces_reindexed (a b : list A) (cut_faces : list face) :
  let uniq := unique_values (ravel cut_faces) in
  take a uniq = Some b →
  take_faces b (face_map (λ x, Z.of_nat (index_of x uniq)) <$> cut_faces)
  = take_faces a cut_faces
  ∧ is_Some (take_faces a cut_faces).
Proof.
  intros uniq Ht.
  assert (∀ f, f ∈ cut_faces →
    face_mapM (getitem b) (face_map (λ x, Z.of_nat (index_of x uniq)) f)
    = face_mapM (getitem a) f ∧ is_Some (face_mapM (getitem a) f)) as Hface.
  { intros [[x y] z] Hf.
    assert (∀ w, w ∈ [x; y; z] → w ∈ uniq) as Hin.
    { intros w Hw. apply unique_values_elem, elem_of_ravel. exists x, y, z.
      split; [done|]. rewrite !elem_of_cons, elem_of_nil in Hw. tauto. }
    destruct (getitem_take a b uniq x Ht) as [Hx' [vx Hx]];
      [apply Hin; rewrite !elem_of_cons; tauto|].
    destruct (getitem_take a b uniq y Ht) as [Hy' [vy Hy]];
      [apply Hin; rewrite !elem_of_cons; tauto|].
    destruct (getitem_take a b uniq z Ht) as [Hz' [vz Hz]];
      [apply Hin; rewrite !elem_of_cons; tauto|].
    simpl. rewrite Hx', Hy', Hz', Hx, Hy, Hz. simpl. eauto. }
  clear Ht. clearbody uniq. unfold take_faces.
  induction cut_faces as [|f fs IH]; [by eauto|].
  rewrite fmap_cons. simpl.
  destruct (Hface f) as [-> [t ->]]; [by left|].
  destruct IH as [-> [ts ->]]; [intros g Hg; apply Hface; by right|].
  simpl. eauto.
Qed.

Lemma take_length (a b : list A) idx : take a idx = Some b → length b = length idx.
Proof. intros Ht. apply take_Some in Ht. symmetry. eapply Forall2_length, Ht. Qed.

End Compaction.

(** Every remapped entry is a position of the sorted unique node list. *)
Lemma reindexed_in_range (cut_faces : list face) :
  let uniq := unique_values (ravel cut_faces) in
  faces_in_range (length uniq)
    (face_map (λ x, Z.of_nat (index_of x uniq)) <$> cut_faces).
Proof.
  intros uniq. unfold faces_in_range.
  apply Forall_fmap, Forall_forall. intros [[x y] z] Hf. simpl.
  assert (∀ w, w ∈ [x; y; z] → (index_of w uniq < length uniq)%nat) as Hin.
  { intros w Hw. apply index_of_lt, unique_values_elem, elem_of_ravel.
    exists x, y, z. split; [done|]. rewrite !elem_of_cons, elem_of_nil in Hw. tauto. }
  pose proof (Hin x) as Hx. pose proof (Hin y) as Hy. pose proof (Hin z) as Hz.
  rewrite !elem_of_cons in Hx, Hy, Hz. lia.
Qed.

(** ** [select_region] and [select_bbox]: the paths of a successful call *)

Section SelectionFacts.
Context `{G : Geometry} {V : Type}.
Implicit Types (o r : xr_obj V) (fs : list face) (p : polygon).

Lemma region_polygon_Return (region : region_arg) ws p :
  region_polygon region = Return ws p →
  ws = [] ∧
  ((∃ x0 y0 x1 y1, region = RegionSeq [x0; y0; x1; y1] ∧ p = box x0 y0 x1 y1)
   ∨ region = RegionPolygon p).
Proof.
  destruct region as [xs|q|ps]; simpl; [| |done].
  - destruct xs as [|x0 [|y0 [|x1 [|y1 [|? ?]]]]]; try done.
    intros [= <- <-]. split; [done|]. left. by exists x0, y0, x1, y1.
  - intros [= <- <-]. auto.
Qed.

Lemma to_dataset_Return o ws r :
  to_dataset o = Return ws r →
  ws = [] ∧ kind o ≠ DataArray None ∧ r = XrObj Dataset (nod2 o) (faces_coord o).
Proof.
  unfold to_dataset. destruct o as [[|[name|]] nodes fc]; simpl; [| |done].
  - by intros [= <- <-].
  - by intros [= <- <-].
Qed.

Lemma isel_nod2_Return o idx ws r :
  isel_nod2 o idx = Return ws r →
  ∃ nodes, take (nod2 o) idx = Some nodes ∧ ws = [] ∧
           r = XrObj (kind o) nodes (faces_coord o).
Proof.
  unfold isel_nod2. intros Hs.
  apply bind_Return in Hs as (ws1 & nodes & ws2 & Ht & Hr & ->).
  apply or_raise_Return in Ht as [Ht ->].
  apply mret_Return in Hr as [<- ->]. eauto.
Qed.

(** The shape of every result of [select_region]. *)
Lemma select_region_inv o (region : region_arg) faces ws r :
  select_region o region faces = Return ws r →
  ∃ p fs,
    region_polygon region = Return [] p ∧
    getattr_faces o faces = Some fs ∧
    ((count_nonzero (node_selection p o) = 0%nat ∧ ws = [NoPointsInRegion] ∧ r = o)
     ∨ (count_nonzero (node_selection p o) ≠ 0%nat ∧
        ∃ sel nodes,
          take_faces (node_selection p o) fs = Some sel ∧
          let cut_faces := compress (all_axis1 sel) fs in
          let uniq := unique_values (ravel cut_faces) in
          take (nod2 o) uniq = Some nodes ∧
          ((uniq = [] ∧ ws = [NoFacesInRegion] ∧ r = XrObj (kind o) nodes None)
           ∨ (uniq ≠ [] ∧ ws = [] ∧ kind o ≠ DataArray None ∧
              r = XrObj Dataset nodes
                    (Some (face_map (λ x, Z.of_nat (index_of x uniq)) <$> cut_faces)))))).
Proof.
  unfold select_region. intros Hs.
  apply bind_Return in Hs as (ws1 & p & ws2 & Hp & Hs & ->).
  destruct (region_polygon_Return _ _ _ Hp) as [-> _].
  exists p. destruct (getattr_faces o faces) as [fs|]; [|done].
  exists fs. split; [done|]. split; [done|].
  case_decide as Hcount.
  - left. simpl in Hs. injection Hs as <- <-. done.
  - right. split; [done|].
    apply bind_Return in Hs as (ws3 & sel & ws4 & Hsel & Hs & ->).
    apply or_raise_Return in Hsel as [Hsel ->].
    exists sel. rewrite reindex_faces_eq, bind_Return_nil in Hs. simpl in Hs.
    apply bind_Return in Hs as (ws5 & r1 & ws6 & Hisel & Hs & ->).
    apply isel_nod2_Return in Hisel as (nodes & Hnodes & -> & ->).
    exists nodes. split; [done|]. cbv zeta. split; [done|].
    rewrite !app_nil_l.
    case_decide as Huniq.
    + left. injection Hs as <- <-.
      split; [by apply length_zero_iff_nil|]. done.
    + right. split; [intros Hnil; by rewrite Hnil in Huniq|].
      apply bind_Return in Hs as (ws7 & r2 & ws8 & Hds & Hs & ->).
      apply to_dataset_Return in Hds as (-> & Hkind & ->).
      apply mret_Return in Hs as [<- ->]. done.
Qed.

(** The shape of every result of [select_bbox], whatever [cut_region]
    computes. *)
Lemma select_bbox_inv cut o (bbox : list float) faces ws r :
  select_bbox cut o bbox faces = Return ws r →
  ∃ fs b0 b1 b2 b3 cut_faces mask nodes,
    getattr_faces o faces = Some fs ∧
    getitem bbox 0 = Some b0 ∧ getitem bbox 1 = Some b1 ∧
    getitem bbox 2 = Some b2 ∧ getitem bbox 3 = Some b3 ∧
    cut (MkSimpleMesh (lon o) (lat o) fs) [b0; b2; b1; b3] = Return ws (cut_faces, mask) ∧
    let uniq := unique_values (ravel cut_faces) in
    take (nod2 o) uniq = Some nodes ∧
    kind o ≠ DataArray None ∧
    r = XrObj Dataset nodes
          (Some (face_map (λ x, Z.of_nat (index_of x uniq)) <$> cut_faces)).
Proof.
  unfold select_bbox. intros Hs.
  destruct (getattr_faces o faces) as [fs|]; [|done].
  apply bind_Return in Hs as (? & b0 & ? & Hb0 & Hs & ->).
  apply or_raise_Return in Hb0 as [Hb0 ->].
  apply bind_Return in Hs as (? & b2 & ? & Hb2 & Hs & ->).
  apply or_raise_Return in Hb2 as [Hb2 ->].
  apply bind_Return in Hs as (? & b1 & ? & Hb1 & Hs & ->).
  apply or_raise_Return in Hb1 as [Hb1 ->].
  apply bind_Return in Hs as (? & b3 & ? & Hb3 & Hs & ->).
  apply or_raise_Return in Hb3 as [Hb3 ->].
  apply bind_Return in Hs as (wc & [cut_faces mask] & ? & Hcut & Hs & ->).
  simpl in Hs. rewrite reindex_faces_eq, bind_Return_nil in Hs.
  apply bind_Return in Hs as (? & r1 & ? & Hisel & Hs & ->).
  apply isel_nod2_Return in Hisel as (nodes & Hnodes & -> & ->).
  apply bind_Return in Hs as (? & r2 & ? & Hds & Hs & ->).
  apply to_dataset_Return in Hds as (-> & Hkind & ->).
  apply mret_Return in Hs as [<- ->]. simpl. rewrite !app_nil_r.
  exists fs, b0, b1, b2, b3, cut_faces, mask, nodes. done.
Qed.

End SelectionFacts.

(** ** Masks: [selection[faces]], [np.all(axis=1)] and [faces[face_mask]] *)

Section Masks.
Context {A : Type}.
Implicit Types (a : list A) (fs : list face) (P : A → bool).

Lemma face_mapM_getitem_fmap {B} (f : A → B) a (t : face) :
  face_mapM (getitem (f <$> a)) t = face_map f <$> face_mapM (getitem a) t.
Proof.
  destruct t as [[x y] z]. simpl. rewrite !getitem_fmap.
  destruct (getitem a x); simpl; [|done].
  destruct (getitem a y); simpl; [|done].
  by destruct (getitem a z).
Qed.

Lemma take_faces_fmap {B} (f : A → B) a fs :
  take_faces (f <$> a) fs = fmap (M:=list) (face_map f) <$> take_faces a fs.
Proof.
  unfold take_faces. induction fs as [|t fs IH]; [done|].
  simpl. rewrite face_mapM_getitem_fmap, IH.
  destruct (face_mapM (getitem a) t); simpl; [|done].
  by destruct (mapM (face_mapM (getitem a)) fs).
Qed.

Lemma all_axis1_face_map P (ts : list (A * A * A)) :
  all_axis1 (face_map P <$> ts) = triangle_all P <$> ts.
Proof.
  unfold all_axis1. rewrite <- list_fmap_compose.
  apply list_fmap_ext. by intros _ [[x y] z] _.
Qed.

(** Masking the faces and then reading them is reading them and then
    filtering. *)
Lemma take_faces_compress (Q : A * A * A → bool) a fs ts :
  take_faces a fs = Some ts →
  take_faces a (compress (Q <$> ts) fs) = Some (filter (λ t, Q t = true) ts).
Proof.
  intros Hts. apply take_faces_Some in Hts. unfold take_faces.
  induction Hts as [|f t fs ts Hf Hts IH]; [done|].
  rewrite fmap_cons. simpl. rewrite filter_cons.
  destruct (Q t) eqn:HQ.
  - rewrite decide_True by done. simpl. by rewrite Hf, IH.
  - rewrite decide_False by done. done.
Qed.

Lemma count_nonzero_zero (mask : list bool) :
  count_nonzero mask = 0%nat ↔ Forall (λ b, b = false) mask.
Proof.
  unfold count_nonzero. rewrite length_zero_iff_nil.
  induction mask as [|[] mask IH]; simpl.
  - split; [constructor | done].
  - rewrite filter_cons_True by done. split; [done|]. by inversion 1.
  - rewrite filter_cons_False by done. rewrite IH. split.
    + by constructor.
    + by inversion 1.
Qed.

(** The core of both selections: mask the nodes by [P], keep the faces whose
    three entries are all selected, compact. The faces of the result, read
    over the compacted nodes, are the triangles of the input with all three
    vertices in [P]. *)
Lemma compacted_triangles P a fs sel nodes :
  take_faces (P <$> a) fs = Some sel →
  let cut_faces := compress (all_axis1 sel) fs in
  let uniq := unique_values (ravel cut_faces) in
  take a uniq = Some nodes →
  ∃ ts, take_faces a fs = Some ts ∧
        take_faces nodes (face_map (λ x, Z.of_nat (index_of x uniq)) <$> cut_faces)
        = Some (filter (λ t, triangle_all P t = true) ts).
Proof.
  intros Hsel cut_faces uniq Hnodes.
  rewrite take_faces_fmap in Hsel.
  destruct (take_faces a fs) as [ts|] eqn:Hts; [|done].
  injection Hsel as <-. exists ts. split; [done|].
  destruct (take_faces_reindexed a nodes cut_faces Hnodes) as [Heq _].
  fold uniq in Heq. rewrite Heq.
  unfold cut_faces. rewrite all_axis1_face_map.
  by apply take_faces_compress.
Qed.

End Masks.

(** The faces of a result read as triangles that all satisfy [P]: then
    every face has its vertices in [P]. *)
Lemma filtered_faces_satisfy `{G : Geometry} {V} (P : node V → bool) (r : xr_obj V) new_faces ts :
  faces_coord r = Some new_faces →
  triangles r new_faces = Some (filter (λ t, triangle_all P t = true) ts) →
  face_vertices_satisfy P r.
Proof.
  intros Hfc Htri fs f Hfs Hf. rewrite Hfc in Hfs. injection Hfs as <-.
  apply take_faces_Some in Htri.
  apply list_elem_of_lookup in Hf as [k Hk].
  destruct (Forall2_lookup_l _ _ _ _ _ Htri Hk) as (t & Ht & Hft).
  exists t. split; [done|].
  apply list_elem_of_lookup_2, list_elem_of_filter in Ht. tauto.
Qed.

(** ** The selections *)

Section SelectionClaims.
Context `{G : Geometry} {V : Type}.
Implicit Types (o r : xr_obj V) (fs : list face) (p : polygon).

Lemma compaction_faces_valid o r : compaction_of o r → faces_valid r.
Proof.
  intros (uniq & _ & Htake & Hfs) fs Hr.
  rewrite (take_length _ _ _ Htake). by apply Hfs.
Qed.

Lemma select_bbox_compaction cut o (bbox : list float) faces ws r :
  select_bbox cut o bbox faces = Return ws r → compaction_of o r.
Proof.
  intros Hs. apply select_bbox_inv in Hs
    as (fs & b0 & b1 & b2 & b3 & cut_faces & mask & nodes & _ & _ & _ & _ & _ & _ & Hs).
  cbv zeta in Hs. destruct Hs as (Htake & _ & ->).
  exists (unique_values (ravel cut_faces)).
  split; [apply unique_values_sorted|]. split; [done|].
  simpl. intros ? [= <-]. apply reindexed_in_range.
Qed.

Lemma select_region_compaction o (region : region_arg) faces ws r :
  select_region o region faces = Return ws r →
  compaction_of o r ∨ (r = o ∧ ws = [NoPointsInRegion]).
Proof.
  intros Hs. apply select_region_inv in Hs as (p & fs & _ & _ & Hs).
  destruct Hs as [(_ & -> & ->)|(_ & sel & nodes & _ & Hs)]; [by right|left].
  cbv zeta in Hs. destruct Hs as (Htake & Hs).
  exists (unique_values (ravel (compress (all_axis1 sel) fs))).
  split; [apply unique_values_sorted|].
  destruct Hs as [(_ & _ & ->)|(_ & _ & _ & ->)]; simpl; (split; [done|]).
  - done.
  - intros ? [= <-]. apply reindexed_in_range.
Qed.

(** C1. Every result of [select_bbox] and of [select_region] that carries a
    faces coordinate holds in it only indices in [[0, K)], [K] being the
    size of the result's node dimension; the nodes kept are those at the
    indices returned by [np.unique], which are ascending and duplicate-free.
    When no node is in the region [select_region] hands back its input, whose
    faces are valid as far as they were on entry. *)
Theorem select_faces_valid cut o (bbox : list float) (region : region_arg) faces ws r :
  (∀ a, StronglySorted Z.lt (unique a).1) ∧
  (select_bbox cut o bbox faces = Return ws r →
     compaction_of o r ∧ faces_valid r) ∧
  (select_region o region faces = Return ws r →
     (compaction_of o r ∨ (r = o ∧ ws = [NoPointsInRegion])) ∧
     (faces_valid o → faces_valid r)).
Proof.
  split; [intros a; apply unique_values_sorted|]. split.
  - intros Hs. apply select_bbox_compaction in Hs.
    split; [done|]. by eapply compaction_faces_valid.
  - intros Hs. apply select_region_compaction in Hs. split; [done|].
    intros Ho. destruct Hs as [Hc|[-> _]]; [|done].
    by eapply compaction_faces_valid.
Qed.

(** The faces of a result of [select_region], read as triangles, are the
    triangles of the input whose three vertices pass the buffered test. *)
Lemma select_region_triangles o (region : region_arg) faces ws r p fs new_faces :
  select_region o region faces = Return ws r →
  region_polygon region = Return [] p →
  getattr_faces o faces = Some fs →
  NoPointsInRegion ∉ ws →
  faces_coord r = Some new_faces →
  ∃ ts, triangles o fs = Some ts ∧
        triangles r new_faces
        = Some (filter (λ t, triangle_all (inside_buffered p) t = true) ts).
Proof.
  intros Hs Hp Hfs Hws Hr.
  apply select_region_inv in Hs as (p' & fs' & Hp' & Hfs' & Hs).
  rewrite Hp in Hp'. injection Hp' as <-.
  rewrite Hfs in Hfs'. injection Hfs' as <-.
  destruct Hs as [(_ & -> & _)|(_ & sel & nodes & Hsel & Hs)].
  { exfalso. apply Hws. by left. }
  cbv zeta in Hs. destruct Hs as (Htake & Hs).
  destruct Hs as [(_ & _ & ->)|(_ & _ & _ & ->)]; [done|].
  simpl in Hr. injection Hr as <-.
  unfold triangles. simpl.
  by apply (compacted_triangles (inside_buffered p)).
Qed.

Lemma zip_with_lon_lat {B} (f : float → float → B) (nodes : list (node V)) :
  zip_with f (node_lon <$> nodes) (node_lat <$> nodes)
  = (λ n, f (node_lon n) (node_lat n)) <$> nodes.
Proof. induction nodes as [|n nodes IH]; [done|]. simpl. by f_equal. Qed.

(** The same for [select_bbox] over the [cut_region] of the spec, with the
    inclusive bounds of the box in place of the region test. *)
Lemma select_bbox_triangles o (bbox : list float) faces ws r :
  select_bbox cut_region o bbox faces = Return ws r →
  ∃ xmin ymin xmax ymax fs new_faces ts,
    getitem bbox 0 = Some xmin ∧ getitem bbox 1 = Some ymin ∧
    getitem bbox 2 = Some xmax ∧ getitem bbox 3 = Some ymax ∧
    getattr_faces o faces = Some fs ∧
    faces_coord r = Some new_faces ∧
    triangles o fs = Some ts ∧
    triangles r new_faces
    = Some (filter (λ t, triangle_all (inside_bounds xmin ymin xmax ymax) t = true) ts).
Proof.
  intros Hs. apply select_bbox_inv in Hs
    as (fs & b0 & b1 & b2 & b3 & cut_faces & mask & nodes
        & Hfs & Hb0 & Hb1 & Hb2 & Hb3 & Hcut & Hs).
  cbv zeta in Hs. destruct Hs as (Htake & _ & ->).
  unfold cut_region in Hcut. simpl in Hcut.
  unfold lon, lat in Hcut. rewrite zip_with_lon_lat in Hcut.
  apply bind_Return in Hcut as (? & sel & ? & Hsel & Hcut & ->).
  apply or_raise_Return in Hsel as [Hsel ->].
  apply mret_Return in Hcut as [[= <- <-] _].
  destruct (compacted_triangles (inside_bounds b0 b1 b2 b3) _ _ _ _ Hsel Htake)
    as (ts & Hts & Htri).
  exists b0, b1, b2, b3, fs. eexists. exists ts.
  repeat (split; [done|]). exact Htri.
Qed.

(** C3, as the code has it. When [select_region] returns without the
    no-points warning, the vertices of every face of the result pass the
    test the code applies, the one against the region buffered by 1e-6
    degrees; otherwise no node passes that test and the result is the input
    itself, with all its faces. The vertices of every face kept by
    [select_bbox] are within the inclusive bounds of the box. *)
Theorem retained_vertices_inside o (bbox : list float) (region : region_arg) faces ws r :
  (select_bbox cut_region o bbox faces = Return ws r →
     ∃ xmin ymin xmax ymax,
       getitem bbox 0 = Some xmin ∧ getitem bbox 1 = Some ymin ∧
       getitem bbox 2 = Some xmax ∧ getitem bbox 3 = Some ymax ∧
       face_vertices_satisfy (inside_bounds xmin ymin xmax ymax) r) ∧
  (select_region o region faces = Return ws r →
     ∃ p, region_polygon region = Return [] p ∧
          (((NoPointsInRegion ∉ ws) ∧ face_vertices_satisfy (inside_buffered p) r) ∨
           (ws = [NoPointsInRegion] ∧ r = o ∧
            Forall (λ n, inside_buffered p n = false) (nod2 o)))).
Proof.
  split.
  - intros Hs. apply select_bbox_triangles in Hs
      as (xmin & ymin & xmax & ymax & fs & new_faces & ts
          & ? & ? & ? & ? & _ & Hr & _ & Htri).
    exists xmin, ymin, xmax, ymax. repeat (split; [done|]).
    by eapply filtered_faces_satisfy.
  - intros Hs.
    destruct (select_region_inv _ _ _ _ _ Hs) as (p & fs & Hp & Hfs & Hpaths).
    exists p. split; [done|].
    destruct Hpaths as [(Hcount & -> & ->)|(_ & sel & nodes & _ & Hrest)].
    { right. split; [done|]. split; [done|].
      apply count_nonzero_zero in Hcount. unfold node_selection in Hcount.
      by apply Forall_fmap in Hcount. }
    left.
    assert (NoPointsInRegion ∉ ws) as Hws.
    { cbv zeta in Hrest. destruct Hrest as (_ & [(_ & -> & _)|(_ & -> & _)]).
      - intros [[=]|Hin%elem_of_nil]%elem_of_cons. done.
      - apply not_elem_of_nil. }
    split; [done|].
    destruct (faces_coord r) as [new_faces|] eqn:Hr.
    + destruct (select_region_triangles _ _ _ _ _ _ _ _ Hs Hp Hfs Hws Hr)
        as (ts & _ & Htri).
      by eapply filtered_faces_satisfy.
    + intros ? ? Hr'. by rewrite Hr in Hr'.
Qed.

End SelectionClaims.

(** ** [select_region], run forward *)

Section RegionRun.
Context `{G : Geometry} {V : Type}.
Implicit Types (o r : xr_obj V) (fs : list face) (p : polygon).

Lemma elem_of_compress {A} (mask : list bool) (l : list A) x :
  x ∈ compress mask l → x ∈ l.
Proof.
  revert mask. induction l as [|y l IH]; intros [|[] mask]; simpl; try by inversion 1.
  - rewrite !elem_of_cons. intros [->|Hx]; [by left | right; by eapply IH].
  - intros Hx. right. by eapply IH.
Qed.

Lemma compress_all_false {A} (Q : A → bool) (ts : list A) {B} (l : list B) :
  Forall (λ t, Q t = false) ts → compress (Q <$> ts) l = [].
Proof.
  intros Hts. revert l. induction Hts as [|t ts Ht _ IH]; intros [|y l]; simpl; try done.
  rewrite Ht. apply IH.
Qed.

(** Reading faces succeeds exactly when every entry is an index numpy
    accepts; then so does reading any of these entries on its own. *)
Lemma take_faces_entries {A} (a : list A) fs ts x :
  take_faces a fs = Some ts → x ∈ ravel fs → is_Some (getitem a x).
Proof.
  intros Hts (x1 & x2 & x3 & Hf & Hx)%elem_of_ravel.
  apply take_faces_Some in Hts.
  apply list_elem_of_lookup in Hf as [k Hk].
  destruct (Forall2_lookup_l _ _ _ _ _ Hts Hk) as (t & _ & Ht).
  simpl in Ht.
  destruct (getitem a x1) eqn:H1; simpl in Ht; [|done].
  destruct (getitem a x2) eqn:H2; simpl in Ht; [|done].
  destruct (getitem a x3) eqn:H3; simpl in Ht; [|done].
  destruct Hx as [-> | [-> | ->]]; eauto.
Qed.

Lemma take_unique_kept {A} (a : list A) fs ts (mask : list bool) :
  take_faces a fs = Some ts →
  is_Some (take a (unique_values (ravel (compress mask fs)))).
Proof.
  intros Hts. unfold take. apply mapM_is_Some, Forall_forall.
  intros x Hx. apply (proj1 (unique_values_elem _ _)) in Hx. simpl.
  eapply take_faces_entries; [exact Hts|].
  apply elem_of_ravel in Hx as (x1 & x2 & x3 & Hf & Hx).
  apply elem_of_ravel. exists x1, x2, x3. split; [|done].
  by eapply elem_of_compress.
Qed.

(** What [select_region] does once the region is accepted, the faces are
    there and refer to nodes, and some node is in the buffered region. *)
Lemma select_region_run o (region : region_arg) faces p fs ts :
  region_polygon region = Return [] p →
  getattr_faces o faces = Some fs →
  triangles o fs = Some ts →
  count_nonzero (node_selection p o) ≠ 0%nat →
  let cut_faces := compress (triangle_all (inside_buffered p) <$> ts) fs in
  let uniq := unique_values (ravel cut_faces) in
  ∃ nodes,
    take (nod2 o) uniq = Some nodes ∧
    select_region o region faces =
      if decide (length uniq = 0%nat)
      then Return [NoFacesInRegion] (XrObj (kind o) nodes None)
      else r ← to_dataset (XrObj (kind o) nodes None);
           mret (assign_faces r (face_map (λ x, Z.of_nat (index_of x uniq)) <$> cut_faces)).
Proof.
  intros Hp Hfs Hts Hcount cut_faces uniq.
  destruct (take_unique_kept (nod2 o) fs ts
              (triangle_all (inside_buffered p) <$> ts) Hts) as [nodes Hnodes].
  exists nodes. split; [done|].
  assert (take_faces (node_selection p o) fs
          = Some (face_map (inside_buffered p) <$> ts)) as Hsel.
  { unfold node_selection. rewrite take_faces_fmap.
    unfold triangles in Hts. by rewrite Hts. }
  unfold select_region. rewrite Hp, bind_Return_nil, Hfs.
  rewrite decide_False by done.
  rewrite Hsel, or_raise_Some, bind_Return_nil, all_axis1_face_map.
  rewrite reindex_faces_eq, bind_Return_nil.
  unfold isel_nod2. rewrite Hnodes, or_raise_Some, bind_Return_nil.
  change (mret ?x ≫= ?k) with (Return [] x ≫= k). rewrite bind_Return_nil.
  fold cut_faces. fold uniq. by case_decide.
Qed.

End RegionRun.

Section RegionClaims.
Context `{G : Geometry} {V : Type}.
Implicit Types (o r : xr_obj V) (fs : list face) (p : polygon).

Lemma unique_values_nil a : unique_values a = [] → a = [].
Proof.
  destruct a as [|x a]; [done|]. intros Hnil.
  assert (x ∈ unique_values (x :: a)) as Hx by (apply unique_values_elem; by left).
  rewrite Hnil in Hx. by apply elem_of_nil in Hx.
Qed.

Lemma ravel_nil {A} (l : list (A * A * A)) : ravel l = [] → l = [].
Proof.
  intros Hnil. apply length_zero_iff_nil.
  pose proof (length_ravel l) as Hlen. rewrite Hnil in Hlen. simpl in Hlen. lia.
Qed.

Lemma accepted_region (region : region_arg) p :
  region = RegionPolygon p ∨
  (∃ x0 y0 x1 y1, region = RegionSeq [x0; y0; x1; y1] ∧ p = box x0 y0 x1 y1) →
  region_polygon region = Return [] p.
Proof. by intros [->|(x0 & y0 & x1 & y1 & -> & ->)]. Qed.

(** C7. When no node is in the region, by the test the code applies,
    [select_region] warns and returns the very object it was given. *)
Theorem select_region_no_points o (region : region_arg) faces p fs :
  region_polygon region = Return [] p →
  getattr_faces o faces = Some fs →
  Forall (λ n, inside_buffered p n = false) (nod2 o) →
  select_region o region faces = Return [NoPointsInRegion] o.
Proof.
  intros Hp Hfs Hnone. unfold select_region.
  rewrite Hp, bind_Return_nil, Hfs. rewrite decide_True; [done|].
  apply count_nonzero_zero. unfold node_selection.
  by apply Forall_fmap.
Qed.

(** C6. When some node is in the buffered region but no triangle has its
    three vertices there, [select_region] warns and returns the object cut
    down to the nodes of the faces kept, of which there are none, without a
    faces coordinate. *)
Theorem select_region_no_faces o (region : region_arg) faces p fs ts n :
  region_polygon region = Return [] p →
  getattr_faces o faces = Some fs →
  triangles o fs = Some ts →
  n ∈ nod2 o → inside_buffered p n = true →
  Forall (λ t, triangle_all (inside_buffered p) t = false) ts →
  ∃ r, select_region o region faces = Return [NoFacesInRegion] r ∧
       faces_coord r = None ∧ nod2 r = [] ∧ kind r = kind o.
Proof.
  intros Hp Hfs Hts Hn Hin Hnone.
  assert (count_nonzero (node_selection p o) ≠ 0%nat) as Hcount.
  { intros Hz. apply count_nonzero_zero in Hz. unfold node_selection in Hz.
    apply Forall_fmap in Hz. eapply Forall_forall in Hz; [|exact Hn].
    simpl in Hz. congruence. }
  destruct (select_region_run o region faces p fs ts Hp Hfs Hts Hcount)
    as (nodes & Hnodes & ->).
  rewrite (compress_all_false _ _ _ Hnone) in *. simpl in *.
  injection Hnodes as <-. eauto.
Qed.

(** C10. A faces coordinate on the input wins over the [faces] argument:
    with it, the argument does not matter. *)
Theorem attached_faces_take_precedence cut o (bbox : list float) (region : region_arg)
    fs faces1 faces2 :
  faces_coord o = Some fs →
  select_bbox cut o bbox faces1 = select_bbox cut o bbox faces2 ∧
  select_region o region faces1 = select_region o region faces2.
Proof.
  intros Ho. unfold select_bbox, select_region, getattr_faces. by rewrite Ho.
Qed.


End RegionClaims.

(** ** The dispatcher *)

Section DispatchClaims.
Context `{G : Geometry} {V : Type}.
Variable tree : Type.
Variable select_points :
  xr_obj V → pyval → pyval → string → option float → option tree → bool →
  gmap string pyval → result (xr_obj V).
Variable xr_sel : xr_obj V → gmap string pyval → option string → result (xr_obj V).

Local Abbreviation dispatch := (select tree select_points xr_sel).
Local Abbreviation finish := (apply_indexers xr_sel).

(** [select] with its two [pop]s carried out. *)
Lemma select_unfold o method tolerance region path tr (indexers : gmap string pyval) :
  let lat := default PyNone (indexers !! "lat") in
  let lon := default PyNone (indexers !! "lon") in
  let rest := delete "lon" (delete "lat" indexers) in
  dispatch o method tolerance region path tr indexers =
    if (is_not_None lat || is_not_None lon)
       && (bool_decide (is_Some region) || bool_decide (is_Some path))
    then Raise ValueError
    else
      ret_arr ←
        (if is_not_None lat || is_not_None lon then
           if is_not_None lat && is_not_None lon then
             if decide (method = "nearest")
             then select_points o lon lat method tolerance tr false ∅
             else Raise NotImplementedError
           else Raise ValueError
         else
           match region, path with
           | Some region, _ => select_region o region None
           | None, Some path => select_path tree select_points o method tolerance tr path
           | None, None => mret o
           end);
      finish ret_arr method rest.
Proof.
  intros lat lon rest. unfold select, pop. simpl.
  rewrite lookup_delete_ne by done. done.
Qed.

Lemma supplied_default (indexers : gmap string pyval) key v :
  supplied indexers key v →
  default PyNone (indexers !! key) = v ∧ is_not_None v = true.
Proof. intros [-> Hv]. split; [done|]. by destruct v. Qed.

Lemma not_supplied_default (indexers : gmap string pyval) key :
  not_supplied indexers key → is_not_None (default PyNone (indexers !! key)) = false.
Proof. by intros [-> | ->]. Qed.

(** C8. [select] raises when a [lon] indexer comes with a region, and when
    only one of [lon] and [lat] is supplied; with both and
    [method='nearest'] (and neither region nor path) it hands the two to
    [select_points], without a distance, and goes on to the remaining
    indexers. *)
Theorem select_lon_lat_rules o method tolerance region path tr
    (indexers : gmap string pyval) vlon :
  supplied indexers "lon" vlon →
  (is_Some region →
     dispatch o method tolerance region path tr indexers = Raise ValueError) ∧
  (not_supplied indexers "lat" →
     dispatch o method tolerance region path tr indexers = Raise ValueError) ∧
  (∀ indexers' vlat, supplied indexers' "lat" vlat → not_supplied indexers' "lon" →
     dispatch o method tolerance region path tr indexers' = Raise ValueError) ∧
  (∀ vlat, supplied indexers "lat" vlat →
     dispatch o "nearest" tolerance None None tr indexers =
       r ← select_points o vlon vlat "nearest" tolerance tr false ∅;
       finish r "nearest" (delete "lon" (delete "lat" indexers))).
Proof.
  intros [Hvlon Hlon]%supplied_default.
  split; [|split; [|split]].
  - intros Hregion. rewrite select_unfold. cbv zeta.
    rewrite Hvlon, Hlon, orb_true_r.
    by rewrite (bool_decide_eq_true_2 _ Hregion).
  - intros Hlat%not_supplied_default. rewrite select_unfold. cbv zeta.
    rewrite Hvlon, Hlon, Hlat. simpl.
    by destruct (bool_decide (is_Some region) || bool_decide (is_Some path)).
  - intros indexers' vlat [Hvlat Hlat]%supplied_default Hlon'%not_supplied_default.
    rewrite select_unfold. cbv zeta. rewrite Hvlat, Hlat, Hlon'. simpl.
    by destruct (bool_decide (is_Some region) || bool_decide (is_Some path)).
  - intros vlat [Hvlat Hlat]%supplied_default.
    rewrite select_unfold. cbv zeta. by rewrite Hvlon, Hlon, Hvlat, Hlat.
Qed.

(** C4, on the code. With neither [lon] nor [lat], a call that gives both a
    region and a path is not refused: the region is selected and the path
    is never looked at. *)
Theorem select_region_with_path o method tolerance (region : region_arg) path tr
    (indexers : gmap string pyval) :
  not_supplied indexers "lat" → not_supplied indexers "lon" →
  dispatch o method tolerance (Some region) (Some path) tr indexers =
    r ← select_region o region None;
    finish r method (delete "lon" (delete "lat" indexers)).
Proof.
  intros Hlat%not_supplied_default Hlon%not_supplied_default.
  rewrite select_unfold. cbv zeta. by rewrite Hlat, Hlon.
Qed.

End DispatchClaims.

(** ** [normalize_distance] *)

Section Distances.

Lemma Qle_div_1000 (x : Q) : (1 <= x / 1000 ↔ 1000 <= x)%Q.
Proof.
  assert (x / 1000 * 1000 == x)%Q as Heq by field.
  rewrite <- (Qmult_le_r 1 (x / 1000) 1000) by done.
  by rewrite Heq, Qmult_1_l.
Qed.

Lemma float_lt_km (x : float) : float_lt (x / 1000)%Q 1%Q = float_lt x 1000%Q.
Proof.
  unfold float_lt. f_equal. apply eq_true_iff_eq.
  rewrite !Qle_bool_iff. apply Qle_div_1000.
Qed.

Lemma third_lt (n c : nat) : (n `div` 3 < c ↔ n < 3 * c)%nat.
Proof.
  pose proof (Nat.div_mod_eq n 3) as Hdm.
  pose proof (Nat.mod_upper_bound n 3) as Hm. lia.
Qed.

Lemma below_1_km (v : list float) :
  (λ x, float_lt x 1%Q) <$> map (λ x, x / 1000)%Q v = (λ x, float_lt x 1000%Q) <$> v.
Proof.
  induction v as [|x v IH]; [done|].
  cbn [map]. rewrite !fmap_cons, IH. f_equal. apply float_lt_km.
Qed.

(** On an array of rank 1 the unit is metres exactly when more than one
    third of the distances are below one kilometre. *)
Lemma normalize_distance_rank1 (v : list float) :
  normalize_distance (Array1 v) =
    if decide (mostly_below_1km (Array1 v))
    then ("m", Array1 v)
    else ("km", Array1 (map (λ x, x / 1000)%Q v)).
Proof.
  unfold normalize_distance, mostly_below_1km, size, below_1km.
  cbn [entries array_map shape0]. rewrite below_1_km.
  generalize (count_nonzero ((λ x, float_lt x 1000%Q) <$> v)). intros c.
  pose proof (third_lt (length v) c) as Hthird.
  repeat case_decide; tauto.
Qed.

Example normalize_distance_500 :
  normalize_distance (Array1 [500; 500; 500]%Q) = ("m", Array1 [500; 500; 500]%Q).
Proof. reflexivity. Qed.

Example normalize_distance_5000 :
  ∃ v, normalize_distance (Array1 [5000; 5000; 5000]%Q) = ("km", Array1 v)
       ∧ Forall2 Qeq v [5; 5; 5]%Q.
Proof. eexists. split; [reflexivity|]. by repeat constructor. Qed.

(** C9, on the code. On an array of rank 2 the count of distances below one
    kilometre is compared with a third of the number of rows: one
    trajectory of four points with a single distance below one kilometre
    comes out in metres, although that is a quarter of its entries. *)
Theorem normalize_distance_rank2 :
  normalize_distance Example.one_trajectory = ("m", Example.one_trajectory)
  ∧ size Example.one_trajectory = 4%nat
  ∧ below_1km Example.one_trajectory = 1%nat
  ∧ ¬ mostly_below_1km Example.one_trajectory.
Proof.
  split; [reflexivity|]. split; [reflexivity|]. split; [reflexivity|].
  unfold mostly_below_1km. vm_compute. lia.
Qed.

End Distances.

(** ** The statements at work on the example mesh *)

Section Runs.
Import Example.

Local Abbreviation sel_region := (select_region (G := RectGeometry) (V := unit)).
Local Abbreviation sel_bbox := (select_bbox (V := unit) cut_region).
Local Abbreviation dispatch := (select (G := RectGeometry) unit first_node sel_all).

Lemma mesh_faces_valid : faces_valid mesh.
Proof.
  intros fs [= <-]. unfold faces_in_range. simpl.
  repeat constructor; lia.
Defined.

Lemma select_faces_valid_witness :
  sel_bbox mesh unit_square None = Return [] bbox_result ∧ faces_valid bbox_result ∧
  sel_region mesh (RegionSeq unit_square) None = Return [] region_result ∧
  faces_valid region_result.
Proof.
  destruct (select_faces_valid (G := RectGeometry) cut_region mesh unit_square
              (RegionSeq unit_square) None [] bbox_result) as (_ & Hbbox & _).
  destruct (select_faces_valid (G := RectGeometry) cut_region mesh unit_square
              (RegionSeq unit_square) None [] region_result) as (_ & _ & Hregion).
  split; [reflexivity|]. split; [apply Hbbox; reflexivity|].
  split; [reflexivity|]. apply Hregion; [reflexivity | exact mesh_faces_valid].
Defined.

(** C3, as the spec has it, fails: on the unit square [select_region] keeps
    the face with the vertex at longitude 1.0000005, which is within the
    tolerance of the square and not in it. *)
Lemma retained_vertex_outside_region :
  sel_region mesh (RegionSeq unit_square) None = Return [] region_result ∧
  region_polygon (G := RectGeometry) (RegionSeq unit_square) = Return [] unit_box ∧
  ¬ face_vertices_satisfy (inside (G := RectGeometry) unit_box) region_result.
Proof.
  split; [reflexivity|]. split; [reflexivity|]. intros Hall.
  destruct (Hall [(0, 1, 2); (0, 2, 3)] (0, 2, 3) eq_refl) as (t & Ht & Hin).
  - right. left.
  - injection Ht as <-. vm_compute in Hin. discriminate.
Qed.

Lemma retained_vertices_inside_witness :
  face_vertices_satisfy (inside_bounds 0 0 1 1)%Q bbox_result ∧
  face_vertices_satisfy (inside_buffered (G := RectGeometry) unit_box) region_result.
Proof.
  destruct (retained_vertices_inside (G := RectGeometry) mesh unit_square
              (RegionSeq unit_square) None [] bbox_result) as (Hbbox & _).
  destruct (retained_vertices_inside (G := RectGeometry) mesh unit_square
              (RegionSeq unit_square) None [] region_result) as (_ & Hregion).
  split.
  - destruct Hbbox as (x0 & y0 & x1 & y1 & [= <-] & [= <-] & [= <-] & [= <-] & Hb);
      [reflexivity | exact Hb].
  - destruct Hregion as (p & [= <-] & [[_ Hp]|[Hws _]]);
      [reflexivity | exact Hp | discriminate Hws].
Defined.



Lemma select_region_no_faces_witness :
  ∃ r, sel_region fragmented (RegionSeq unit_square) None = Return [NoFacesInRegion] r ∧
       faces_coord r = None ∧ nod2 r = [] ∧ kind r = Dataset.
Proof.
  apply (select_region_no_faces (G := RectGeometry) fragmented (RegionSeq unit_square) None
           unit_box [(3, 4, 0)]
           [(at_ (7 # 10) (3 # 10), at_ (10000005 # 10000000) (1 # 2), at_ 5 5)]
           (at_ (1 # 2) (1 # 2))).
  - reflexivity.
  - reflexivity.
  - reflexivity.
  - right. left.
  - reflexivity.
  - repeat constructor.
Defined.

Lemma select_region_no_points_witness :
  sel_region mesh (RegionSeq far_square) None = Return [NoPointsInRegion] mesh.
Proof.
  apply (select_region_no_points (G := RectGeometry) mesh (RegionSeq far_square) None
           far_box mesh_faces).
  - reflexivity.
  - reflexivity.
  - repeat constructor.
Defined.

Lemma attached_faces_take_precedence_witness :
  sel_bbox mesh unit_square None = sel_bbox mesh unit_square (Some [(0, 0, 0)]) ∧
  sel_region mesh (RegionSeq unit_square) None
  = sel_region mesh (RegionSeq unit_square) (Some [(0, 0, 0)]).
Proof.
  apply (attached_faces_take_precedence (G := RectGeometry) cut_region mesh unit_square
           (RegionSeq unit_square) mesh_faces).
  reflexivity.
Defined.

Lemma select_lon_lat_rules_witness :
  dispatch mesh "nearest" None (Some (RegionSeq unit_square)) None None lon_and_lat
  = Raise ValueError ∧
  dispatch mesh "nearest" None None None None lat_only = Raise ValueError ∧
  dispatch mesh "nearest" None None None None lon_and_lat
  = Return [] (XrObj Dataset [at_ 5 5] None).
Proof.
  destruct (select_lon_lat_rules (G := RectGeometry) unit first_node sel_all mesh "nearest"
              None (Some (RegionSeq unit_square)) None None lon_and_lat (PyArray [1 # 2]))
    as (Hregion & _ & _ & Hboth).
  { split; [reflexivity | discriminate]. }
  destruct (select_lon_lat_rules (G := RectGeometry) unit first_node sel_all mesh "nearest"
              None None None None lon_and_lat (PyArray [1 # 2]))
    as (_ & _ & Hone & _).
  { split; [reflexivity | discriminate]. }
  split; [apply Hregion; by eexists|].
  split.
  - apply (Hone lat_only (PyArray [1 # 2])).
    + split; [reflexivity | discriminate].
    + left. reflexivity.
  - rewrite (Hboth (PyArray [1 # 2])); [reflexivity|].
    split; [reflexivity | discriminate].
Defined.

Lemma select_region_with_path_witness :
  dispatch mesh "nearest" None (Some (RegionSeq unit_square)) (Some a_path) None ∅
  = Return [] region_result.
Proof.
  rewrite (select_region_with_path (G := RectGeometry) unit first_node sel_all mesh
             "nearest" None (RegionSeq unit_square) a_path None ∅).
  - reflexivity.
  - left. reflexivity.
  - left. reflexivity.
Defined.

End Runs.

(** * Further properties of the selections *)

Lemma Forall2_impl_elem {A B} (P Q : A → B → Prop) l k :
  Forall2 P l k → (∀ x y, x ∈ l → P x y → Q x y) → Forall2 Q l k.
Proof.
  induction 1 as [|x y l k Hxy _ IH]; intros Himpl; constructor.
  - apply Himpl; [by left | done].
  - apply IH. intros x' y' Hx'. apply Himpl. by right.
Qed.

Section CompactionFacts.
Context {A : Type}.
Implicit Types (a b : list A) (uniq : list Z).

Lemma elem_of_take a idx b x : take a idx = Some b → x ∈ b → x ∈ a.
Proof.
  intros Ht%take_Some Hx. apply list_elem_of_lookup in Hx as [k Hk].
  destruct (Forall2_lookup_r _ _ _ _ _ Ht Hk) as (i & _ & Hi).
  unfold getitem in Hi. destruct (norm_index _ _) as [j|]; simpl in Hi; [|done].
  by eapply list_elem_of_lookup_2.
Qed.

(** Reading [a] at ascending indices within bounds gives a sublist of [a]. *)
Lemma take_ascending_sublist a : ∀ uniq b (off : Z),
  StronglySorted Z.lt uniq →
  Forall (λ i, off ≤ i < off + Z.of_nat (length a)) uniq →
  Forall2 (λ i v, a !! Z.to_nat (i - off) = Some v) uniq b →
  b `sublist_of` a.
Proof.
  induction a as [|x a IH]; intros uniq b off Hsorted Hrange Hread.
  - destruct Hread as [|i v uniq b Hi _]; [constructor | done].
  - destruct Hread as [|i v uniq b Hi Hread]; [apply sublist_nil_l|].
    apply StronglySorted_inv in Hsorted as [Hsorted Hlt].
    apply Forall_cons in Hrange as [Hi_range Hrange].
    assert (Forall (λ j, off + 1 ≤ j < off + 1 + Z.of_nat (length a)) uniq) as Hrange'.
    { apply Forall_forall. intros j Hj.
      rewrite Forall_forall in Hlt, Hrange.
      specialize (Hlt j Hj). specialize (Hrange j Hj). simpl in Hrange. lia. }
    assert (Forall2 (λ j w, a !! Z.to_nat (j - (off + 1)) = Some w) uniq b) as Hread'.
    { eapply Forall2_impl_elem; [exact Hread|].
      intros j w Hj Hjw. rewrite Forall_forall in Hrange'. specialize (Hrange' j Hj).
      simpl in Hjw. replace (Z.to_nat (j - off)) with (S (Z.to_nat (j - (off + 1)))) in Hjw by lia.
      done. }
    destruct (decide (i = off)) as [->|Hne].
    + rewrite Z.sub_diag in Hi. injection Hi as <-.
      apply sublist_skip. by apply (IH uniq b (off + 1)).
    + apply sublist_cons. apply (IH (i :: uniq) (v :: b) (off + 1)).
      * by constructor.
      * constructor; [simpl in Hi_range; lia | done].
      * constructor; [|done].
        replace (Z.to_nat (i - off)) with (S (Z.to_nat (i - (off + 1)))) in Hi
          by (simpl in Hi_range; lia).
        done.
Qed.

Lemma take_sublist a uniq b :
  StronglySorted Z.lt uniq →
  Forall (λ i, 0 ≤ i < Z.of_nat (length a)) uniq →
  take a uniq = Some b →
  b `sublist_of` a.
Proof.
  intros Hsorted Hrange Ht%take_Some.
  apply (take_ascending_sublist a uniq b 0 Hsorted).
  - eapply Forall_impl; [exact Hrange|]. simpl. lia.
  - eapply Forall2_impl_elem; [exact Ht|].
    intros i v Hi Hiv. rewrite Forall_forall in Hrange. specialize (Hrange i Hi).
    simpl in Hiv. unfold getitem in Hiv. rewrite norm_index_nonneg in Hiv by done.
    by rewrite Z.sub_0_r.
Qed.

End CompactionFacts.

Section IndexFacts.

Lemma ascending_NoDup (l : list Z) : StronglySorted Z.lt l → NoDup l.
Proof.
  induction 1 as [|x l _ IH Hx]; constructor; [|done].
  intros Hin. rewrite Forall_forall in Hx. specialize (Hx x Hin). lia.
Qed.

Lemma index_of_NoDup (l : list Z) k x : NoDup l → l !! k = Some x → index_of x l = k.
Proof.
  intros Hnd. revert k. induction Hnd as [|y l Hy _ IH]; intros [|k] Hk; try done.
  - injection Hk as ->. simpl. by rewrite Z.eqb_refl.
  - simpl in *. destruct (Z.eqb_spec x y) as [->|_].
    + exfalso. apply Hy. by eapply list_elem_of_lookup_2.
    + f_equal. by apply IH.
Qed.

Lemma ravel_fmap {A B} (g : A → B) (fs : list (A * A * A)) :
  ravel (face_map g <$> fs) = g <$> ravel fs.
Proof.
  induction fs as [|[[a b] c] fs IH]; [done|].
  unfold ravel in *. rewrite fmap_cons, !bind_cons, fmap_app, IH. done.
Qed.

(** The remapped faces use every position of the sorted unique node list. *)
Lemma reindexed_cover (cut_faces : list face) :
  let uniq := unique_values (ravel cut_faces) in
  faces_cover (length uniq)
    (face_map (λ x, Z.of_nat (index_of x uniq)) <$> cut_faces).
Proof.
  intros uniq k Hk.
  destruct (lookup_lt_is_Some_2 uniq k Hk) as [x Hx].
  rewrite ravel_fmap. apply list_elem_of_fmap. exists x. split.
  - f_equal. symmetry. apply index_of_NoDup; [|done].
    apply ascending_NoDup, unique_values_sorted.
  - apply unique_values_elem. by eapply list_elem_of_lookup_2.
Qed.

Lemma elem_of_ravel_compress (mask : list bool) (fs : list face) x :
  x ∈ ravel (compress mask fs) → x ∈ ravel fs.
Proof.
  intros (a & b & c & Hf & Hx)%elem_of_ravel. apply elem_of_ravel.
  exists a, b, c. split; [by eapply elem_of_compress | done].
Qed.

Lemma faces_in_range_ravel n (fs : list face) :
  faces_in_range n fs ↔ Forall (λ i, 0 ≤ i < Z.of_nat n) (ravel fs).
Proof.
  unfold faces_in_range. rewrite !Forall_forall. split.
  - intros Hfs x (a & b & c & Hf & Hx)%elem_of_ravel.
    specialize (Hfs _ Hf). simpl in Hfs. destruct Hx as [-> | [-> | ->]]; tauto.
  - intros Hr [[a b] c] Hf.
    assert (∀ x, x = a ∨ x = b ∨ x = c → 0 ≤ x < Z.of_nat n) as Hin.
    { intros x Hx. apply Hr, elem_of_ravel. by exists a, b, c. }
    split; [|split]; apply Hin; tauto.
Qed.

End IndexFacts.

(** ** The face reindexing *)

(** C2. The reindexing is a bijection between the global indices used by
    the faces and [[0, K)]: the node list returned by [np.unique] is
    ascending, duplicate-free and holds exactly the indices used; the
    remapped faces have the shape of the faces given, hold positions of
    that list only and use every one of them; decoding the remapped faces
    through the node list gives back the faces given, entry by entry, and a
    position of the list is the code of the index it holds. For any face
    array, unsorted and with repeats. *)
Theorem reindex_faces_roundtrip (cut_faces : list face) :
  ∃ uniq new_faces,
    unique (ravel cut_faces) = (uniq, ravel new_faces) ∧
    reindex_faces cut_faces = Return [] (uniq, new_faces) ∧
    StronglySorted Z.lt uniq ∧ NoDup uniq ∧
    (∀ x, x ∈ uniq ↔ x ∈ ravel cut_faces) ∧
    length new_faces = length cut_faces ∧
    faces_in_range (length uniq) new_faces ∧
    faces_cover (length uniq) new_faces ∧
    take_faces uniq new_faces = Some cut_faces ∧
    new_faces = face_map (λ x, Z.of_nat (index_of x uniq)) <$> cut_faces ∧
    (∀ x, x ∈ ravel cut_faces → getitem uniq (Z.of_nat (index_of x uniq)) = Some x) ∧
    (∀ k x, uniq !! k = Some x → index_of x uniq = k).
Proof.
  exists (unique_values (ravel cut_faces)),
    (face_map (λ x, Z.of_nat (index_of x (unique_values (ravel cut_faces)))) <$> cut_faces).
  split; [by rewrite ravel_fmap|].
  split; [apply reindex_faces_eq|].
  split; [apply unique_values_sorted|].
  split; [apply ascending_NoDup, unique_values_sorted|].
  split; [intros x; apply unique_values_elem|].
  split; [by rewrite length_fmap|].
  split; [apply reindexed_in_range|].
  split; [apply reindexed_cover|].
  assert (∀ x, x ∈ ravel cut_faces →
    getitem (unique_values (ravel cut_faces))
      (Z.of_nat (index_of x (unique_values (ravel cut_faces)))) = Some x) as Hget.
  { intros x Hx. by apply getitem_index_of, unique_values_elem. }
  split; [|split; [done|split; [exact Hget|]]].
  - apply take_faces_Some, Forall2_fmap_l, Forall_Forall2_diag, Forall_forall.
    intros [[a b] c] Hf. simpl.
    rewrite !Hget; [done| | |]; apply elem_of_ravel; exists a, b, c; tauto.
  - intros k x Hk. apply index_of_NoDup; [|done].
    apply ascending_NoDup, unique_values_sorted.
Qed.

Section SelectionExtras.
Context `{G : Geometry} {V : Type}.
Implicit Types (o r : xr_obj V) (fs : list face) (p : polygon).

(** X1. Selection by box or by region only picks nodes: every node of the
    result, with the data it carries, is a node of the input. *)
Theorem selected_nodes_from_input cut o (bbox : list float) (region : region_arg)
    faces ws r n :
  select_bbox cut o bbox faces = Return ws r ∨
  select_region o region faces = Return ws r →
  n ∈ nod2 r → n ∈ nod2 o.
Proof.
  intros Hs Hn.
  assert (compaction_of o r ∨ r = o) as [(uniq & _ & Htake & _)| ->]; [|by eapply elem_of_take|done].
  destruct Hs as [Hs%select_bbox_compaction|Hs%select_region_compaction]; [by left|].
  destruct Hs as [?|[-> _]]; [by left | by right].
Qed.

(** X2. On a mesh whose faces hold indices in [[0, N)], the nodes
    [select_region] returns are a sublist of the nodes it was given: in
    their original order and none of them twice. *)
Theorem select_region_nodes_sublist o (region : region_arg) faces fs ws r :
  getattr_faces o faces = Some fs →
  faces_in_range (length (nod2 o)) fs →
  select_region o region faces = Return ws r →
  nod2 r `sublist_of` nod2 o ∧ (length (nod2 r) ≤ length (nod2 o))%nat.
Proof.
  intros Hfs Hrange Hs.
  assert (nod2 r `sublist_of` nod2 o) as Hsub; [|split; [done | by apply sublist_length]].
  apply select_region_inv in Hs as (p & fs' & _ & Hfs' & Hs).
  rewrite Hfs in Hfs'. injection Hfs' as <-.
  destruct Hs as [(_ & _ & ->)|(_ & sel & nodes & _ & Hs)]; [done|].
  cbv zeta in Hs. destruct Hs as (Htake & Hs).
  assert (nod2 r = nodes) as -> by (by destruct Hs as [(_ & _ & ->)|(_ & _ & _ & ->)]).
  eapply take_sublist; [apply unique_values_sorted | | exact Htake].
  apply Forall_forall. intros x Hx%unique_values_elem%elem_of_ravel_compress.
  apply faces_in_range_ravel in Hrange. rewrite Forall_forall in Hrange. by apply Hrange.
Qed.

(** X3. The compacted index space is dense: in a result of [select_bbox]
    that carries faces, every node is a vertex of some face. So it is in a
    result of [select_region] that carries faces, except when no node was
    in the region: then the input is returned as it was, under the
    no-points warning, with whatever faces and nodes it had. *)
Theorem selected_faces_cover cut o (bbox : list float) (region : region_arg)
    faces ws r fs :
  (select_bbox cut o bbox faces = Return ws r →
     faces_coord r = Some fs →
     faces_cover (length (nod2 r)) fs) ∧
  (select_region o region faces = Return ws r →
     faces_coord r = Some fs →
     ((NoPointsInRegion ∉ ws) ∧ faces_cover (length (nod2 r)) fs) ∨
     (ws = [NoPointsInRegion] ∧ r = o)).
Proof.
  split; intros Hs Hr.
  - apply select_bbox_inv in Hs
      as (? & ? & ? & ? & ? & cut_faces & ? & nodes & _ & _ & _ & _ & _ & _ & Hs).
    cbv zeta in Hs. destruct Hs as (Htake & _ & ->).
    simpl in *. injection Hr as <-.
    rewrite (take_length _ _ _ Htake). apply reindexed_cover.
  - apply select_region_inv in Hs as (p & fs' & _ & _ & Hs).
    destruct Hs as [(_ & -> & ->)|(_ & sel & nodes & _ & Hs)]; [by right|].
    left. cbv zeta in Hs.
    destruct Hs as (Htake & [(_ & _ & ->)|(_ & -> & _ & ->)]); [done|].
    split; [apply not_elem_of_nil|].
    simpl in *. injection Hr as <-.
    rewrite (take_length _ _ _ Htake). apply reindexed_cover.
Qed.

End SelectionExtras.

Section DenseFacts.

Lemma seqZ_ascending m n : StronglySorted Z.lt (seqZ m n).
Proof.
  remember (Z.to_nat n) as k eqn:Hk. revert m n Hk.
  induction k as [|k IH]; intros m n Hk.
  - rewrite seqZ_nil by lia. constructor.
  - rewrite seqZ_cons by lia. constructor; [apply IH; lia|].
    apply Forall_seqZ. intros m' Hm'. lia.
Qed.

(** Faces with entries in [[0, K)] that use every index have [0, ..., K-1]
    as their sorted unique values. *)
Lemma unique_values_dense K (fs : list face) :
  faces_in_range K fs → faces_cover K fs →
  unique_values (ravel fs) = seqZ 0 (Z.of_nat K).
Proof.
  intros Hrange%faces_in_range_ravel Hcover.
  apply (StronglySorted_unique_strong Z.lt).
  - intros; lia.
  - apply unique_values_sorted.
  - apply seqZ_ascending.
  - apply NoDup_Permutation.
    + apply ascending_NoDup, unique_values_sorted.
    + apply NoDup_seqZ.
    + intros x. rewrite unique_values_elem, elem_of_seqZ. split.
      * intros Hx. rewrite Forall_forall in Hrange. specialize (Hrange x Hx). lia.
      * intros Hx. replace x with (Z.of_nat (Z.to_nat x)) by lia. apply Hcover. lia.
Qed.

Lemma index_of_seqZ K x :
  0 ≤ x < Z.of_nat K → Z.of_nat (index_of x (seqZ 0 (Z.of_nat K))) = x.
Proof.
  intros Hx. rewrite (index_of_NoDup _ (Z.to_nat x) x); [lia | apply NoDup_seqZ |].
  rewrite lookup_seqZ_lt by lia. f_equal. lia.
Qed.

Lemma take_seqZ {A} (a : list A) : take a (seqZ 0 (Z.of_nat (length a))) = Some a.
Proof.
  apply take_Some, Forall2_same_length_lookup_2.
  - rewrite length_seqZ. lia.
  - intros k i x Hi Hx. apply lookup_seqZ in Hi as [-> Hk].
    rewrite Z.add_0_l, getitem_of_nat by lia. done.
Qed.

Lemma faces_reindexed_dense K (fs : list face) :
  faces_in_range K fs →
  face_map (λ x, Z.of_nat (index_of x (seqZ 0 (Z.of_nat K)))) <$> fs = fs.
Proof.
  unfold faces_in_range. induction 1 as [|[[a b] c] fs (Ha & Hb & Hc) _ IH]; [done|].
  rewrite fmap_cons, IH. simpl. by rewrite !index_of_seqZ.
Qed.

Lemma compress_all_true {A B} (Q : A → bool) (ts : list A) (l : list B) :
  Forall (λ t, Q t = true) ts → length ts = length l → compress (Q <$> ts) l = l.
Proof.
  intros Hts. revert l. induction Hts as [|t ts Ht _ IH]; intros [|y l] Hlen; try done.
  simpl. rewrite Ht. f_equal. apply IH. simpl in Hlen. lia.
Qed.

End DenseFacts.

Section Idempotence.
Context `{G : Geometry} {V : Type}.
Implicit Types (o r : xr_obj V) (fs : list face) (p : polygon).

(** When every face read over [nodes] is a triangle that satisfies [P] and
    the faces use every node, every node satisfies [P]. *)
Lemma covered_nodes_satisfy (P : node V → bool) (nodes : list (node V)) fs ts :
  take_faces nodes fs = Some ts →
  Forall (λ t, triangle_all P t = true) ts →
  faces_cover (length nodes) fs →
  Forall (λ n, P n = true) nodes.
Proof.
  intros Hts Hall Hcover. apply Forall_lookup. intros k n Hk.
  assert (k < length nodes)%nat as Hlt by (by eapply lookup_lt_Some).
  destruct (proj1 (elem_of_ravel _ _) (Hcover k Hlt)) as (a & b & c & Hf & Hx).
  apply take_faces_Some in Hts.
  apply list_elem_of_lookup in Hf as [j Hj].
  destruct (Forall2_lookup_l _ _ _ _ _ Hts Hj) as ([[ta tb] tc] & Ht & Hft).
  rewrite Forall_lookup in Hall. specialize (Hall _ _ Ht). simpl in Hall, Hft.
  apply andb_prop in Hall as [[Hta Htb]%andb_prop Htc].
  destruct (getitem nodes a) as [na|] eqn:Ha; simpl in Hft; [|done].
  destruct (getitem nodes b) as [nb|] eqn:Hb; simpl in Hft; [|done].
  destruct (getitem nodes c) as [nc|] eqn:Hc; simpl in Hft; [|done].
  injection Hft as <- <- <-.
  destruct Hx as [<- | [<- | <-]].
  - rewrite getitem_of_nat, Hk in Ha by done. by injection Ha as <-.
  - rewrite getitem_of_nat, Hk in Hb by done. by injection Hb as <-.
  - rewrite getitem_of_nat, Hk in Hc by done. by injection Hc as <-.
Qed.

(** X4. Selecting by region is idempotent: a result that carries faces,
    selected again by the same region, comes back as it is, whatever the
    [faces] argument of the second call. *)
Theorem select_region_idempotent o (region : region_arg) faces faces' r :
  select_region o region faces = Return [] r →
  select_region r region faces' = Return [] r.
Proof.
  intros Hs.
  apply select_region_inv in Hs as (p & fs & Hp & Hfs & Hs).
  destruct Hs as [(_ & [=] & _)|(_ & sel & nodes & Hsel & Hs)].
  cbv zeta in Hs. destruct Hs as (Htake & [(_ & [=] & _)|(Huniq & _ & _ & ->)]).
  set (cut_faces := compress (all_axis1 sel) fs) in *.
  set (uniq := unique_values (ravel cut_faces)) in *.
  set (new_faces := face_map (λ x, Z.of_nat (index_of x uniq)) <$> cut_faces).
  set (r := XrObj Dataset nodes (Some new_faces)).
  (* what the first call established *)
  destruct (compacted_triangles (inside_buffered p) _ _ _ _ Hsel Htake)
    as (ts & _ & Hkept).
  fold cut_faces uniq new_faces in Hkept.
  set (kept := filter (λ t, triangle_all (inside_buffered p) t = true) ts) in *.
  assert (Forall (λ t, triangle_all (inside_buffered p) t = true) kept) as Hall.
  { apply Forall_forall. by intros t [Ht _]%list_elem_of_filter. }
  assert (length nodes = length uniq) as Hlen by (by eapply take_length).
  assert (faces_in_range (length nodes) new_faces) as Hrange.
  { rewrite Hlen. apply reindexed_in_range. }
  assert (faces_cover (length nodes) new_faces) as Hcover.
  { rewrite Hlen. apply reindexed_cover. }
  assert (Forall (λ n, inside_buffered p n = true) nodes) as Hinside.
  { by eapply covered_nodes_satisfy. }
  assert (count_nonzero (node_selection p r) ≠ 0%nat) as Hcount.
  { intros Hz%count_nonzero_zero. unfold node_selection in Hz. simpl in Hz.
    apply Forall_fmap in Hz. destruct nodes as [|n nodes'].
    - destruct uniq; [done | discriminate Hlen].
    - apply Forall_cons in Hz as [Hz _]. apply Forall_cons in Hinside as [Hin _].
      simpl in Hz. congruence. }
  (* the second call *)
  destruct (select_region_run r region faces' p new_faces kept Hp eq_refl Hkept Hcount)
    as (nodes' & Hnodes' & ->).
  assert (length kept = length new_faces) as Hlen'.
  { apply take_faces_Some in Hkept. symmetry. by eapply Forall2_length. }
  assert (compress (A := face) (triangle_all (inside_buffered p) <$> kept) new_faces
          = new_faces) as Hcut by (by apply compress_all_true).
  rewrite Hcut in Hnodes' |- *.
  rewrite (unique_values_dense _ _ Hrange Hcover) in Hnodes' |- *.
  simpl in Hnodes'. rewrite take_seqZ in Hnodes'. injection Hnodes' as <-.
  rewrite faces_reindexed_dense by done.
  rewrite decide_False; [done|].
  rewrite length_seqZ, Hlen. destruct uniq; [done | simpl; lia].
Qed.

End Idempotence.

(** * Further properties: errors and result types *)

Section SelectionErrors.
Context `{G : Geometry} {V : Type}.
Implicit Types (o r : xr_obj V) (fs : list face) (p : polygon).

Lemma select_region_needs_faces o (region : region_arg) :
  faces_coord o = None → select_region o region None = Raise ValueError.
Proof.
  intros Ho. unfold select_region, getattr_faces. rewrite Ho.
  destruct region as [[|? [|? [|? [|? [|? ?]]]]]|q|ps]; reflexivity.
Qed.

(** X5. Without face information, neither on the object nor as argument,
    both selections raise [ValueError], whatever the box or region; and
    since the dispatcher never passes faces on, [select] with a region
    raises [ValueError] on every object that has no faces coordinate. *)
Theorem select_without_faces o :
  faces_coord o = None →
  (∀ cut (bbox : list float), select_bbox cut o bbox None = Raise ValueError) ∧
  (∀ region : region_arg, select_region o region None = Raise ValueError) ∧
  (∀ tree select_points xr_sel method tolerance (region : region_arg) path tr
     (indexers : gmap string pyval),
     select tree select_points xr_sel o method tolerance (Some region) path tr indexers
     = Raise ValueError).
Proof.
  intros Ho. split; [|split].
  - intros cut bbox. unfold select_bbox, getattr_faces. by rewrite Ho.
  - intros region. by apply select_region_needs_faces.
  - intros tree select_points xr_sel method tolerance region path tr indexers.
    rewrite select_unfold. cbv zeta.
    rewrite (bool_decide_eq_true_2 (is_Some (Some region))) by eauto.
    rewrite orb_true_l, andb_true_r.
    destruct (is_not_None _ || is_not_None _); [done|].
    by rewrite select_region_needs_faces.
Qed.

(** X6. A box of fewer than four numbers makes [select_bbox] raise
    [IndexError] before the mesh is cut, provided faces are there; the
    faces are looked for first. *)
Theorem select_bbox_short_box cut o (bbox : list float) faces fs :
  getattr_faces o faces = Some fs →
  (length bbox < 4)%nat →
  select_bbox cut o bbox faces = Raise IndexError.
Proof.
  intros Hfs Hlen. unfold select_bbox. rewrite Hfs.
  destruct bbox as [|b0 [|b1 [|b2 [|b3 ?]]]]; simpl in Hlen; try lia; reflexivity.
Qed.

(** X7. [select_bbox] always returns a Dataset with a faces coordinate,
    also for a DataArray. [select_region] does so when it returns without
    a warning; with a warning the result keeps the type of the input and
    either is the input or has no faces coordinate. *)
Theorem selection_result_kind cut o (bbox : list float) (region : region_arg) faces ws r :
  (select_bbox cut o bbox faces = Return ws r →
     kind r = Dataset ∧ is_Some (faces_coord r)) ∧
  (select_region o region faces = Return ws r →
     (ws = [] ∧ kind r = Dataset ∧ is_Some (faces_coord r)) ∨
     (ws = [NoPointsInRegion] ∧ r = o) ∨
     (ws = [NoFacesInRegion] ∧ kind r = kind o ∧ faces_coord r = None ∧ nod2 r = [])).
Proof.
  split.
  - intros Hs. apply select_bbox_inv in Hs
      as (? & ? & ? & ? & ? & cut_faces & ? & nodes & _ & _ & _ & _ & _ & _ & Hs).
    cbv zeta in Hs. destruct Hs as (_ & _ & ->). simpl. eauto.
  - intros Hs. apply select_region_inv in Hs as (p & fs & _ & _ & Hs).
    destruct Hs as [(_ & -> & ->)|(_ & sel & nodes & _ & Hs)]; [by right; left|].
    cbv zeta in Hs. destruct Hs as (Htake & [(Huniq & -> & ->)|(_ & -> & _ & ->)]).
    + right. right. simpl. rewrite Huniq in Htake. by injection Htake as <-.
    + left. simpl. eauto.
Qed.

(** X8. On an unnamed DataArray [select_bbox] never returns, and
    [select_region] returns only with a warning, that is when it selected
    nothing: the conversion to a Dataset needs a name. *)
Theorem unnamed_dataarray_not_selected cut o (bbox : list float) (region : region_arg)
    faces ws r :
  kind o = DataArray None →
  select_bbox cut o bbox faces ≠ Return ws r ∧
  (select_region o region faces = Return ws r → ws ≠ []).
Proof.
  intros Ho. split.
  - intros Hs. apply select_bbox_inv in Hs
      as (? & ? & ? & ? & ? & ? & ? & ? & _ & _ & _ & _ & _ & _ & Hs).
    cbv zeta in Hs. by destruct Hs as (_ & Hkind & _).
  - intros Hs. apply select_region_inv in Hs as (p & fs & _ & _ & Hs).
    destruct Hs as [(_ & -> & _)|(_ & sel & nodes & _ & Hs)]; [done|].
    cbv zeta in Hs. by destruct Hs as (_ & [(_ & -> & _)|(_ & _ & Hkind & _)]).
Qed.

End SelectionErrors.

Section DispatchExtras.
Context `{G : Geometry} {V : Type}.
Variable tree : Type.
Variable select_points :
  xr_obj V → pyval → pyval → string → option float → option tree → bool →
  gmap string pyval → result (xr_obj V).
Variable xr_sel : xr_obj V → gmap string pyval → option string → result (xr_obj V).

Local Abbreviation dispatch := (select tree select_points xr_sel).

(** X9. Passing [lat=None] or [lon=None] is the same as not passing it. *)
Theorem select_explicit_None o method tolerance region path tr
    (indexers : gmap string pyval) key :
  key = "lat" ∨ key = "lon" →
  dispatch o method tolerance region path tr (<[key := PyNone]> indexers)
  = dispatch o method tolerance region path tr (delete key indexers).
Proof.
  intros [-> | ->]; rewrite !select_unfold; cbv zeta.
  - rewrite lookup_insert_eq, lookup_delete_eq, delete_insert_eq, delete_delete_eq.
    by rewrite lookup_insert_ne, lookup_delete_ne by done.
  - rewrite lookup_insert_eq, lookup_delete_eq.
    rewrite lookup_insert_ne, lookup_delete_ne by done.
    rewrite (delete_insert_ne _ "lat" "lon") by done.
    rewrite delete_insert_eq.
    rewrite (delete_delete _ "lat" "lon"), (delete_delete_eq _ "lon").
    by rewrite (delete_delete _ "lon" "lat").
Qed.

(** X10. Without [lon], [lat] and region, a path that is not two
    coordinate columns of the same length, a line or a mapping is refused
    with [ValueError]; nothing is looked up. *)
Theorem select_rejects_path o method tolerance path tr (indexers : gmap string pyval) :
  not_supplied indexers "lat" → not_supplied indexers "lon" →
  path = PathOther ∨
  (∃ cols, path = PathSeq cols ∧ length cols ≠ 2%nat) ∨
  (∃ lons lats, path = PathSeq [lons; lats] ∧ length lons ≠ length lats) →
  dispatch o method tolerance None (Some path) tr indexers = Raise ValueError.
Proof.
  intros Hlat%not_supplied_default Hlon%not_supplied_default Hpath.
  rewrite select_unfold. cbv zeta. rewrite Hlat, Hlon. simpl.
  destruct Hpath as [-> | [(cols & -> & Hcols) | (lons & lats & -> & Hlen)]]; simpl.
  - done.
  - by destruct cols as [|? [|? [|? ?]]].
  - by rewrite decide_False.
Qed.

(** X11. With both [lon] and [lat] and neither region nor path, a method
    other than ['nearest'] raises [NotImplementedError]; nothing is looked
    up. *)
Theorem select_method_not_nearest o method tolerance tr
    (indexers : gmap string pyval) vlon vlat :
  supplied indexers "lon" vlon → supplied indexers "lat" vlat →
  method ≠ "nearest" →
  dispatch o method tolerance None None tr indexers = Raise NotImplementedError.
Proof.
  intros [Hvlon Hlon]%supplied_default [Hvlat Hlat]%supplied_default Hmethod.
  rewrite select_unfold. cbv zeta. rewrite Hvlon, Hlon, Hvlat, Hlat. simpl.
  by rewrite decide_False.
Qed.

(** X12. With no [lon], [lat], region or path and no slice among the
    indexers, [select] is one call of xarray's [sel] with the method and all
    the indexers except [lat] and [lon]. *)
Theorem select_like_sel o method tolerance tr (indexers : gmap string pyval) :
  not_supplied indexers "lat" → not_supplied indexers "lon" →
  map_Forall (λ _ v, is_slice v = false) indexers →
  dispatch o method tolerance None None tr indexers
  = xr_sel o (delete "lon" (delete "lat" indexers)) (Some method).
Proof.
  intros Hlat%not_supplied_default Hlon%not_supplied_default Hvalues.
  rewrite select_unfold. cbv zeta. rewrite Hlat, Hlon. simpl.
  assert (map_Forall (λ _ v, is_slice v = false) (delete "lon" (delete "lat" indexers)))
    as Hrest.
  { intros k v Hk. apply lookup_delete_Some in Hk as [_ Hk].
    apply lookup_delete_Some in Hk as [_ Hk]. by eapply Hvalues. }
  assert (apply_indexers xr_sel o method (delete "lon" (delete "lat" indexers))
          = xr_sel o (delete "lon" (delete "lat" indexers)) (Some method)) as ->.
  { unfold apply_indexers. rewrite decide_True.
    - change (mret o ≫= ?k) with (Return [] o ≫= k). rewrite bind_Return_nil.
      f_equal. apply map_filter_id. intros k v Hk. by eapply Hrest.
    - apply map_empty_filter. intros k v Hk. simpl.
      rewrite (Hrest k v Hk). done. }
  by destruct (xr_sel _ _ _).
Qed.

End DispatchExtras.

(** * Distances along a trajectory *)

Section TrajectoryFacts.
Variable geod_inverse : float * float → float * float → float.

Lemma Qplus_0_l_eq (x : Q) : (0 + x)%Q = x.
Proof. destruct x as [n d]. unfold Qplus. simpl. f_equal. lia. Qed.

Lemma length_cumsum_from acc a : length (cumsum_from acc a) = length a.
Proof. revert acc. induction a as [|x a IH]; intros acc; simpl; [done | by rewrite IH]. Qed.

Lemma length_cumsum a : length (cumsum a) = length a.
Proof. destruct a; simpl; [done | by rewrite length_cumsum_from]. Qed.

Lemma cumsum_from_step acc a k x y :
  (acc :: cumsum_from acc a) !! k = Some x →
  (acc :: cumsum_from acc a) !! S k = Some y →
  ∃ t, a !! k = Some t ∧ y = (x + t)%Q.
Proof.
  revert acc k. induction a as [|t a IH]; intros acc [|k] Hx Hy; simpl in *; try done.
  - injection Hx as <-. injection Hy as <-. eauto.
  - by eapply IH.
Qed.

Lemma cumsum_step a k x y :
  (0%Q :: cumsum a) !! k = Some x →
  (0%Q :: cumsum a) !! S k = Some y →
  ∃ t, a !! k = Some t ∧ y = (x + t)%Q.
Proof.
  destruct a as [|t a]; [by destruct k|]. intros Hx Hy.
  destruct k as [|k]; simpl in *.
  - injection Hx as <-. injection Hy as <-. exists t. by rewrite Qplus_0_l_eq.
  - by eapply cumsum_from_step.
Qed.

Lemma cumsum_from_firstn n acc a :
  cumsum_from acc (firstn n a) = firstn n (cumsum_from acc a).
Proof.
  revert n acc. induction a as [|x a IH]; intros [|n] acc; simpl; try done.
  by rewrite IH.
Qed.

Lemma cumsum_firstn n a : cumsum (firstn n a) = firstn n (cumsum a).
Proof. destruct a as [|x a], n as [|n]; simpl; try done. by rewrite cumsum_from_firstn. Qed.

Lemma along_cons p rest :
  along geod_inverse (p :: rest) = 0%Q :: cumsum (zip_with geod_inverse (p :: rest) rest).
Proof. done. Qed.

Lemma length_along points : length (along geod_inverse points) = length points.
Proof.
  destruct points as [|p rest]; [done|].
  rewrite along_cons. cbn [length]. rewrite length_cumsum, length_zip_with.
  cbn [length]. lia.
Qed.

(** From one point to the next the distance grows by the geodesic distance
    between the two. *)
Lemma along_step points k x y :
  along geod_inverse points !! k = Some x →
  along geod_inverse points !! S k = Some y →
  ∃ p q, points !! k = Some p ∧ points !! S k = Some q ∧
         y = (x + geod_inverse p q)%Q.
Proof.
  destruct points as [|p0 rest]; [done|]. rewrite along_cons. intros Hx Hy.
  destruct (cumsum_step _ _ _ _ Hx Hy) as (t & Ht & ->).
  apply lookup_zip_with_Some in Ht as (p & q & -> & Hp & Hq). eauto.
Qed.

Lemma along_firstn n points :
  along geod_inverse (firstn n points) = firstn n (along geod_inverse points).
Proof.
  destruct points as [|p rest], n as [|n]; try done.
  cbn [firstn]. rewrite !along_cons. cbn [firstn]. f_equal.
  rewrite <- cumsum_firstn, zip_with_take. f_equal.
  change (p :: firstn n rest) with (firstn (S n) (p :: rest)).
  by rewrite !zip_with_take_l' by (rewrite length_take; lia).
Qed.

Lemma length_cumsum_from_with add acc a :
  length (cumsum_from_with add acc a) = length a.
Proof. revert acc. induction a as [|x a IH]; intros acc; simpl; [done | by rewrite IH]. Qed.

Lemma cumsum_from_with_step add acc a k x y :
  (acc :: cumsum_from_with add acc a) !! k = Some x →
  (acc :: cumsum_from_with add acc a) !! S k = Some y →
  ∃ t, a !! k = Some t ∧ y = add x t.
Proof.
  revert acc k. induction a as [|t a IH]; intros acc [|k] Hx Hy; simpl in *; try done.
  - injection Hx as <-. injection Hy as <-. eauto.
  - by eapply IH.
Qed.

(** With the exact sum the accumulation is [cumsum]. *)
Lemma cumsum_from_with_exact acc a : cumsum_from_with Qplus acc a = cumsum_from acc a.
Proof. revert acc. induction a as [|x a IH]; intros acc; simpl; [done | by rewrite IH]. Qed.

Lemma cumsum_with_exact a : cumsum_with Qplus a = cumsum a.
Proof. destruct a; simpl; [done | by rewrite cumsum_from_with_exact]. Qed.

Lemma track_distances_with_exact lons lats :
  track_distances_with Qplus geod_inverse lons lats = track_distances geod_inverse lons lats.
Proof.
  unfold track_distances_with, track_distances, along_with, along.
  case_decide; [|done]. destruct (zip lons lats); [done|].
  by rewrite cumsum_with_exact.
Qed.

End TrajectoryFacts.

Section TrajectoryClaims.
Variable geod_inverse : float * float → float * float → float.

Lemma track_distances_Return lons lats ws d :
  track_distances geod_inverse lons lats = Return ws d ↔
  ws = [] ∧ length lons = length lats ∧ d = along geod_inverse (zip lons lats).
Proof.
  unfold track_distances. case_decide as Hlen.
  - rewrite mret_Return. split.
    + by intros [<- ->].
    + by intros (-> & _ & ->).
  - split; [done|]. by intros (_ & ? & _).
Qed.

(** A row of a rank-2 result is the distances along the row of points, or
    all zero when [lats] has no such row. *)
Lemma tracks_distances_rows lons lats ws ds :
  tracks_distances geod_inverse lons lats = Return ws ds →
  ws = [] ∧
  Forall2 (λ d row, d = replicate (length row) 0%Q ∨
                    ∃ ys, length row = length ys ∧ d = along geod_inverse (zip row ys))
          ds lons.
Proof.
  revert lats ws ds. induction lons as [|row lons IH]; intros lats ws ds Hs.
  - simpl in Hs. apply mret_Return in Hs as [<- ->]. by split.
  - destruct lats as [|ys lats].
    + simpl in Hs. apply mret_Return in Hs as [<- ->]. split; [done|].
      constructor; [by left|].
      apply Forall2_fmap_l, Forall_Forall2_diag, Forall_forall. intros r _. by left.
    + simpl in Hs.
      apply bind_Return in Hs as (ws1 & d & ws2 & Hd & Hs & ->).
      apply bind_Return in Hs as (ws3 & ds' & ws4 & Hds & Hs & ->).
      apply mret_Return in Hs as [<- ->].
      apply track_distances_Return in Hd as (-> & Hlen & ->).
      apply IH in Hds as (-> & Hrows). split; [done|].
      constructor; [|done]. right. by exists ys.
Qed.

Lemma length_zip_same {A B} (l : list A) (k : list B) :
  length l = length k → length (zip l k) = length l.
Proof. intros Hlen. rewrite length_zip_with. lia. Qed.

(** X13. [distance_along_trajectory] returns an array of the shape of
    [lons]: for rank 1, exactly when the two columns have one length, and
    otherwise raises [ValueError]; for rank 2, row by row. *)
Theorem distance_along_trajectory_shape :
  (∀ lons lats, length lons = length lats →
     ∃ d, distance_along_trajectory geod_inverse (Track lons lats) = Return [] (Array1 d)
          ∧ length d = length lons) ∧
  (∀ lons lats, length lons ≠ length lats →
     distance_along_trajectory geod_inverse (Track lons lats) = Raise ValueError) ∧
  (∀ lons lats ws a,
     distance_along_trajectory geod_inverse (Tracks lons lats) = Return ws a →
     ws = [] ∧ ∃ ds, a = Array2 ds ∧ Forall2 (λ d row, length d = length row) ds lons).
Proof.
  split; [|split].
  - intros lons lats Hlen. eexists. unfold distance_along_trajectory, track_distances.
    rewrite decide_True by done. split; [reflexivity|].
    by rewrite length_along, length_zip_same.
  - intros lons lats Hlen. unfold distance_along_trajectory, track_distances.
    by rewrite decide_False.
  - intros lons lats ws a Hs. unfold distance_along_trajectory in Hs.
    apply bind_Return in Hs as (ws1 & ds & ws2 & Hds & Hs & ->).
    apply mret_Return in Hs as [<- ->].
    apply tracks_distances_rows in Hds as (-> & Hrows). split; [done|].
    exists ds. split; [done|]. eapply Forall2_impl; [exact Hrows|].
    intros d row [-> | (ys & Hlen & ->)]; simpl.
    + by rewrite length_replicate.
    + by rewrite length_along, length_zip_same.
Qed.

Lemma along_starts_at_zero points : starts_at_zero (along geod_inverse points).
Proof. destruct points; [by left | by right]. Qed.

Lemma along_nondecreasing points :
  (∀ p q, 0 <= geod_inverse p q)%Q → nondecreasing (along geod_inverse points).
Proof.
  intros Hpos k x y Hx Hy.
  destruct (along_step _ _ _ _ _ Hx Hy) as (p & q & _ & _ & ->).
  rewrite <- (Qplus_0_r x) at 1. apply Qplus_le_compat; [apply Qle_refl | apply Hpos].
Qed.

Lemma zeros_grow n :
  starts_at_zero (replicate n 0%Q) ∧ nondecreasing (replicate n 0%Q).
Proof.
  split.
  - destruct n; [by left | by right].
  - intros k x y [-> _]%lookup_replicate [-> _]%lookup_replicate. apply Qle_refl.
Qed.

(** X14. As long as the geodesic distance between two points is never
    negative, every row of distances starts at zero and never decreases. *)
Theorem distances_start_at_zero_and_grow t ws a :
  (∀ p q, 0 <= geod_inverse p q)%Q →
  distance_along_trajectory geod_inverse t = Return ws a →
  Forall (λ d, starts_at_zero d ∧ nondecreasing d) (rows_of a).
Proof.
  intros Hpos Hs. destruct t as [lons lats|lons lats|]; simpl in Hs; [| |done].
  - apply bind_Return in Hs as (ws1 & d & ws2 & Hd & Hs & ->).
    apply mret_Return in Hs as [<- ->].
    apply track_distances_Return in Hd as (-> & _ & ->). simpl.
    constructor; [|constructor].
    split; [apply along_starts_at_zero | by apply along_nondecreasing].
  - apply bind_Return in Hs as (ws1 & ds & ws2 & Hds & Hs & ->).
    apply mret_Return in Hs as [<- ->].
    apply tracks_distances_rows in Hds as (-> & Hrows). simpl.
    apply Forall_forall. intros d Hd.
    apply list_elem_of_lookup in Hd as [k Hk].
    destruct (Forall2_lookup_l _ _ _ _ _ Hrows Hk) as (row & _ & [-> | (ys & _ & ->)]).
    + apply zeros_grow.
    + split; [apply along_starts_at_zero | by apply along_nondecreasing].
Qed.

(** X15. Along a rank-1 trajectory, whatever the rounding of the addition
    [add] that [np.cumsum] accumulates with: there is one distance per
    point, the first is zero, the second is the geodesic distance between
    the first two points, and every later one is [add] of the one before
    and of the geodesic distance between the two points. *)
Theorem distance_increments add lons lats ws d :
  track_distances_with add geod_inverse lons lats = Return ws d →
  length d = length lons ∧
  (∀ x, d !! 0%nat = Some x → x = 0%Q) ∧
  (∀ y, d !! 1%nat = Some y →
     ∃ p q, zip lons lats !! 0%nat = Some p ∧ zip lons lats !! 1%nat = Some q ∧
            y = geod_inverse p q) ∧
  (∀ k x y, d !! S k = Some x → d !! S (S k) = Some y →
     ∃ p q, zip lons lats !! S k = Some p ∧ zip lons lats !! S (S k) = Some q ∧
            y = add x (geod_inverse p q)).
Proof.
  unfold track_distances_with. case_decide as Hlen; [|done].
  intros [<- ->]%mret_Return.
  assert (length (zip lons lats) = length lons) as Hzip by by apply length_zip_same.
  rewrite <- Hzip. clear Hzip.
  destruct (zip lons lats) as [|p0 [|p1 rest]].
  { by repeat split. }
  { repeat split; [by intros x [= <-] | done | by intros [|k]]. }
  change (along_with add geod_inverse (p0 :: p1 :: rest))
    with (0%Q :: geod_inverse p0 p1
            :: cumsum_from_with add (geod_inverse p0 p1)
                 (zip_with geod_inverse (p1 :: rest) rest)).
  split.
  { cbn [length]. rewrite length_cumsum_from_with, length_zip_with.
    cbn [length]. lia. }
  split; [by intros x [= <-]|].
  split.
  - intros y [= <-]. by exists p0, p1.
  - intros k x y Hx Hy. cbn [lookup list_lookup] in Hx, Hy.
    destruct (cumsum_from_with_step _ _ _ _ _ _ Hx Hy) as (t & Ht & ->).
    apply lookup_zip_with_Some in Ht as (p & q & -> & Hp & Hq).
    exists p, q. by repeat split.
Qed.

(** X16. The distances along the first [n] points of a rank-1 trajectory
    are the first [n] distances along the whole: what lies ahead does not
    change the distance covered. *)
Theorem distance_prefix lons lats d n :
  distance_along_trajectory geod_inverse (Track lons lats) = Return [] (Array1 d) →
  distance_along_trajectory geod_inverse (Track (firstn n lons) (firstn n lats))
  = Return [] (Array1 (firstn n d)).
Proof.
  intros Hs. simpl in Hs.
  apply bind_Return in Hs as (ws1 & d' & ws2 & Hd & Hs & _).
  apply mret_Return in Hs as [[= <-] ->].
  apply track_distances_Return in Hd as (-> & Hlen & ->).
  unfold distance_along_trajectory, track_distances.
  rewrite decide_True by (rewrite !length_take; lia).
  by rewrite <- (zip_with_take pair n lons lats), along_firstn.
Qed.

End TrajectoryClaims.

(** * The unit of a distance array *)

Section UnitFacts.

Lemma entries_array_map f a : entries (array_map f a) = map f (entries a).
Proof. destruct a as [v|rows]; simpl; [done|]. symmetry. apply concat_map. Qed.

(** [normalize_distance] on an array of any rank, with the count taken on
    the metres. *)
Lemma normalize_distance_eq a :
  normalize_distance a =
    if decide (shape0 a `div` 3 < below_1km a)%nat
    then ("m", a)
    else ("km", array_map (λ x, x / 1000)%Q a).
Proof.
  unfold normalize_distance, below_1km. by rewrite entries_array_map, below_1_km.
Qed.

Lemma float_lt_spec (x y : float) : float_lt x y = true ↔ (x < y)%Q.
Proof.
  unfold float_lt. rewrite negb_true_iff, <- not_true_iff_false, Qle_bool_iff.
  split; [apply Qnot_le_lt | apply Qlt_not_le].
Qed.

Lemma count_nonzero_pos (mask : list bool) :
  (0 < count_nonzero mask)%nat → true ∈ mask.
Proof.
  intros Hpos. destruct (decide (count_nonzero mask = 0%nat)) as [Hz|Hnz]; [lia|].
  rewrite count_nonzero_zero in Hnz. apply not_Forall_Exists in Hnz; [|apply _].
  apply Exists_exists in Hnz as (b & Hb & Hne). simpl in Hne. by destruct b.
Qed.

(** X17. The unit is metres only if some distance is below one kilometre:
    an array whose distances are all at least one kilometre, an empty one
    included, comes back in kilometres, whatever its rank. *)
Theorem normalize_distance_metres_only_if_short a :
  (Forall (λ x, 1000 <= x)%Q (entries a) →
     normalize_distance a = ("km", array_map (λ x, x / 1000)%Q a)) ∧
  (∀ b, normalize_distance a = ("m", b) →
     b = a ∧ ∃ x, x ∈ entries a ∧ (x < 1000)%Q).
Proof.
  rewrite normalize_distance_eq. split.
  - intros Hfar. rewrite decide_False; [done|].
    assert (below_1km a = 0%nat) as ->; [|lia].
    apply count_nonzero_zero, Forall_fmap. eapply Forall_impl; [exact Hfar|].
    intros x Hx. simpl. apply not_true_iff_false. rewrite float_lt_spec.
    by apply Qle_not_lt.
  - intros b Hm. case_decide as Hcount; [|discriminate Hm].
    injection Hm as <-. split; [done|].
    assert (true ∈ (λ x, float_lt x 1000%Q) <$> entries a) as Hin.
    { apply count_nonzero_pos. unfold below_1km in Hcount. lia. }
    apply list_elem_of_fmap in Hin as (x & Hx & Hin).
    exists x. split; [done|]. by apply float_lt_spec.
Qed.

End UnitFacts.

(** * Nearest-node lookup *)

Section PointsFacts.
Context {V : Type}.
Variable tree : Type.
Variable build_tree : list float → list float → tree.
Variable tree_query : tree → list float → list float → list Z.
Variable xr_sel : xr_obj V → gmap string pyval → option string → result (xr_obj V).
Variable geod_inverse : float * float → float * float → float.

Local Abbreviation lookup_points :=
  (select_points tree build_tree tree_query xr_sel geod_inverse).

Lemma two_sizes (X : gset nat) a b : a ∈ X → b ∈ X → a ≠ b → (1 < base.size X)%nat.
Proof.
  intros Ha Hb Hne.
  assert ({[a]} ∪ {[b]} ⊆ X) as Hsub.
  { intros x [->%elem_of_singleton | ->%elem_of_singleton]%elem_of_union; done. }
  apply subseteq_size in Hsub.
  rewrite size_union, !size_singleton in Hsub; [lia|].
  intros x ->%elem_of_singleton Hx%elem_of_singleton. done.
Qed.

Lemma elem_of_set_len_dims lons lats (other_dims : gmap string (list float)) n :
  n ∈ set_len_dims lons lats other_dims ↔
  n = length lons ∨ n = length lats ∨ ∃ k v, other_dims !! k = Some v ∧ n = length v.
Proof.
  unfold set_len_dims. rewrite elem_of_list_to_set, !elem_of_cons, list_elem_of_fmap.
  split.
  - intros [-> | [-> | (v & -> & Hv)]]; [tauto | tauto |].
    apply list_elem_of_fmap in Hv as ([k v'] & -> & Hkv).
    apply elem_of_map_to_list in Hkv. right. right. by exists k, v'.
  - intros [-> | [-> | (k & v & Hkv & ->)]]; [tauto | tauto |].
    right. right. exists v. split; [done|].
    apply list_elem_of_fmap. exists (k, v). split; [done|].
    by apply elem_of_map_to_list.
Qed.

Lemma same_length_size lons lats (other_dims : gmap string (list float)) :
  same_length lons lats other_dims →
  base.size (set_len_dims lons lats other_dims) = 1%nat.
Proof.
  intros [Hlats Hother].
  assert (set_len_dims lons lats other_dims = {[length lons]}) as ->;
    [|apply size_singleton].
  apply set_eq. intros n. rewrite elem_of_set_len_dims, elem_of_singleton. split.
  - intros [-> | [-> | (k & v & Hkv & ->)]]; [done | done |]. by eapply Hother.
  - intros ->. by left.
Qed.

(** X18. Lengths are checked first: when [lat] or one of the other
    dimensions has not the length of [lon], [select_points] raises
    [ValueError], whatever the method, the tolerance and the tree. *)
Theorem select_points_length_mismatch xrobj lons lats method tolerance tr
    return_distance (other_dims : gmap string (list float)) :
  length lats ≠ length lons ∨
  (∃ k v, other_dims !! k = Some v ∧ length v ≠ length lons) →
  lookup_points xrobj lons lats method tolerance tr return_distance other_dims
  = Raise ValueError.
Proof.
  intros Hmis. unfold select_points. rewrite decide_True; [done|].
  destruct Hmis as [Hlats | (k & v & Hkv & Hv)].
  - apply (two_sizes _ (length lats) (length lons)); [| |done];
      apply elem_of_set_len_dims; tauto.
  - apply (two_sizes _ (length v) (length lons)); [| |done];
      apply elem_of_set_len_dims; [|tauto]. right. right. by exists k, v.
Qed.

(** X19. Once the lengths agree, a method other than ['nearest'] raises
    [NotImplementedError], and so does a tolerance with ['nearest']. *)
Theorem select_points_unsupported xrobj lons lats method tolerance tr
    return_distance (other_dims : gmap string (list float)) :
  same_length lons lats other_dims →
  method ≠ "nearest" ∨ is_Some tolerance →
  lookup_points xrobj lons lats method tolerance tr return_distance other_dims
  = Raise NotImplementedError.
Proof.
  intros Hsame%same_length_size Hunsupported. unfold select_points.
  rewrite decide_False by lia.
  case_decide as Hmethod; [|done].
  destruct Hunsupported as [? | [tol ->]]; done.
Qed.

(** X20. What a successful lookup gives: the method was ['nearest']
    without tolerance on a query of one length; the object has no faces
    coordinate; and the distance coordinate is there exactly when asked for,
    in metres or kilometres, with one distance per query point. *)
Theorem select_points_result xrobj lons lats method tolerance tr return_distance
    (other_dims : gmap string (list float)) ws res :
  lookup_points xrobj lons lats method tolerance tr return_distance other_dims
  = Return ws res →
  method = "nearest" ∧ tolerance = None ∧ length lats = length lons ∧
  faces_coord (selected res) = None ∧
  match distance res with
  | None => return_distance = false
  | Some (unit, dist) =>
      return_distance = true ∧ (unit = "m" ∨ unit = "km") ∧
      ∃ d, dist = Array1 d ∧ length d = length lons
  end.
Proof.
  unfold select_points. intros Hs.
  case_decide as Hsize; [done|].
  case_decide as Hmethod; [|done].
  destruct tolerance as [tol|]; [done|].
  assert (length lats = length lons) as Hlen.
  { destruct (decide (length lats = length lons)) as [|Hne]; [done|].
    exfalso. apply Hsize.
    apply (two_sizes _ (length lats) (length lons)); [| |done];
      apply elem_of_set_len_dims; tauto. }
  do 3 (split; [done|]).
  apply bind_Return in Hs as (ws1 & r1 & ws2 & _ & Hs & _).
  apply bind_Return in Hs as (ws3 & r2 & ws4 & _ & Hs & _).
  destruct return_distance.
  - apply bind_Return in Hs as (ws5 & dist & ws6 & Hdist & Hs & _).
    apply mret_Return in Hs as [<- _]. simpl. split; [done|].
    cbn [distance_along_trajectory] in Hdist.
    apply bind_Return in Hdist as (ws7 & d & ws8 & Hd & Hdist & _).
    apply mret_Return in Hdist as [<- _].
    apply track_distances_Return in Hd as (_ & _ & ->).
    rewrite normalize_distance_rank1.
    case_decide; (split; [done|]).
    + split; [by left|]. eexists. split; [done|].
      by rewrite length_along, length_zip_same.
    + split; [by right|]. eexists. split; [done|].
      by rewrite length_map, length_along, length_zip_same.
  - apply mret_Return in Hs as [<- _]. done.
Qed.

Local Abbreviation accessor_select_points :=
  (FESOMDataset_select_points tree build_tree tree_query xr_sel geod_inverse).


End PointsFacts.

(** * Paths, rows and empty cuts *)

Section MoreDispatch.
Context `{G : Geometry} {V : Type}.
Variable tree : Type.
Variable select_points :
  xr_obj V → pyval → pyval → string → option float → option tree → bool →
  gmap string pyval → result (xr_obj V).
Variable xr_sel : xr_obj V → gmap string pyval → option string → result (xr_obj V).

Local Abbreviation dispatch := (select tree select_points xr_sel).



End MoreDispatch.

Section RowByRow.
Variable geod_inverse : float * float → float * float → float.

Lemma tracks_distances_lookup lons lats ws ds i row :
  tracks_distances geod_inverse lons lats = Return ws ds →
  lons !! i = Some row →
  match lats !! i with
  | Some ys => length row = length ys ∧ ds !! i = Some (along geod_inverse (zip row ys))
  | None => ds !! i = Some (replicate (length row) 0%Q)
  end.
Proof.
  revert lats ws ds i. induction lons as [|r lons IH]; intros lats ws ds i Hs Hrow; [done|].
  destruct lats as [|ys lats].
  - simpl in Hs. apply mret_Return in Hs as [<- _].
    change (r :: lons) with ([r] ++ lons) in Hrow. simpl.
    destruct i as [|i]; simpl in *.
    + by injection Hrow as <-.
    + by rewrite list_lookup_fmap, Hrow.
  - simpl in Hs.
    apply bind_Return in Hs as (ws1 & d & ws2 & Hd & Hs & ->).
    apply bind_Return in Hs as (ws3 & ds' & ws4 & Hds & Hs & ->).
    apply mret_Return in Hs as [<- _].
    apply track_distances_Return in Hd as (_ & Hlen & ->).
    destruct i as [|i]; simpl in *.
    + by injection Hrow as <-.
    + by eapply IH.
Qed.

(** X24. Rank 2 is rank 1 row by row: each row of the result is what the
    row of [lons] and the row of [lats] give on their own; a row of [lons]
    with no row of [lats] beside it is left at zero. *)
Theorem distance_row_by_row lons lats ws ds i row :
  distance_along_trajectory geod_inverse (Tracks lons lats) = Return ws (Array2 ds) →
  lons !! i = Some row →
  match lats !! i with
  | Some ys =>
      ∃ d, ds !! i = Some d ∧
           distance_along_trajectory geod_inverse (Track row ys) = Return [] (Array1 d)
  | None => ds !! i = Some (replicate (length row) 0%Q)
  end.
Proof.
  intros Hs Hrow. cbn [distance_along_trajectory] in Hs.
  apply bind_Return in Hs as (ws1 & ds' & ws2 & Hds & Hs & _).
  apply mret_Return in Hs as [[= <-] _].
  pose proof (tracks_distances_lookup _ _ _ _ _ _ Hds Hrow) as Hi.
  destruct (lats !! i) as [ys|]; [|done].
  destruct Hi as [Hlen Hi]. eexists. split; [exact Hi|].
  unfold distance_along_trajectory, track_distances. by rewrite decide_True.
Qed.

End RowByRow.

(** * The further statements at work *)

Section MoreRuns.
Import Example Sample.

Local Abbreviation sel_region := (select_region (G := RectGeometry) (V := unit)).
Local Abbreviation sel_bbox := (select_bbox (V := unit) cut_region).
Local Abbreviation dispatch := (select (G := RectGeometry) unit first_node sel_all).
Local Abbreviation lookup_points := (select_points unit unit_tree node0 sel_all one_km).
Local Abbreviation distances := (distance_along_trajectory one_km).

Lemma selected_nodes_from_input_witness : at_ (1 # 2) (1 # 2) ∈ nod2 mesh.
Proof.
  apply (selected_nodes_from_input (G := RectGeometry) cut_region mesh unit_square
           (RegionSeq unit_square) None [] region_result).
  - right. reflexivity.
  - left.
Defined.

Lemma select_region_nodes_sublist_witness :
  nod2 region_result `sublist_of` nod2 mesh ∧ (length (nod2 region_result) ≤ 5)%nat.
Proof.
  apply (select_region_nodes_sublist (G := RectGeometry) mesh (RegionSeq unit_square)
           None mesh_faces []).
  - reflexivity.
  - unfold faces_in_range. simpl. repeat constructor; lia.
  - reflexivity.
Defined.

Lemma selected_faces_cover_witness :
  faces_cover 4 [(0, 1, 2); (0, 2, 3)] ∧
  sel_region mesh (RegionSeq far_square) None = Return [NoPointsInRegion] mesh.
Proof.
  split; [|reflexivity].
  destruct (selected_faces_cover (G := RectGeometry) cut_region mesh unit_square
              (RegionSeq unit_square) None [] region_result [(0, 1, 2); (0, 2, 3)])
    as (_ & Hregion).
  destruct Hregion as [[_ Hcover]|[Hws _]];
    [reflexivity | reflexivity | exact Hcover | discriminate Hws].
Defined.

Lemma select_region_idempotent_witness :
  sel_region region_result (RegionSeq unit_square) (Some [(7, 7, 7)])
  = Return [] region_result.
Proof.
  apply (select_region_idempotent (G := RectGeometry) mesh (RegionSeq unit_square) None).
  reflexivity.
Defined.

Lemma select_without_faces_witness :
  sel_bbox bare unit_square None = Raise ValueError ∧
  sel_region bare (RegionSeq unit_square) None = Raise ValueError ∧
  dispatch bare "nearest" None (Some (RegionSeq unit_square)) None None ∅
  = Raise ValueError.
Proof.
  destruct (select_without_faces (G := RectGeometry) bare) as (Hbbox & Hregion & Hselect).
  - reflexivity.
  - split; [apply Hbbox|]. split; [apply Hregion | apply Hselect].
Defined.

Lemma select_bbox_short_box_witness :
  sel_bbox mesh [0; 0; 1]%Q None = Raise IndexError.
Proof.
  apply (select_bbox_short_box cut_region mesh [0; 0; 1]%Q None mesh_faces).
  - reflexivity.
  - simpl. lia.
Defined.

Lemma selection_result_kind_witness :
  kind bbox_result = Dataset ∧ kind region_result = Dataset.
Proof.
  destruct (selection_result_kind (G := RectGeometry) cut_region mesh unit_square
              (RegionSeq unit_square) None [] bbox_result) as [Hbbox _].
  destruct (selection_result_kind (G := RectGeometry) cut_region mesh unit_square
              (RegionSeq unit_square) None [] region_result) as [_ Hregion].
  split.
  - apply Hbbox. reflexivity.
  - destruct Hregion as [(_ & Hkind & _) | [[[=] _] | [[=] _]]]; [reflexivity | exact Hkind].
Defined.

Lemma unnamed_dataarray_not_selected_witness :
  sel_bbox unnamed unit_square None ≠ Return [] bbox_result ∧
  [NoPointsInRegion] ≠ [].
Proof.
  destruct (unnamed_dataarray_not_selected (G := RectGeometry) cut_region unnamed
              unit_square (RegionSeq far_square) None [] bbox_result eq_refl)
    as [Hbbox _].
  destruct (unnamed_dataarray_not_selected (G := RectGeometry) cut_region unnamed
              unit_square (RegionSeq far_square) None [NoPointsInRegion] unnamed eq_refl)
    as [_ Hregion].
  split; [exact Hbbox | apply Hregion; reflexivity].
Defined.

Lemma select_explicit_None_witness :
  dispatch mesh "nearest" None None None None (<["lat" := PyNone]> lon_and_lat)
  = dispatch mesh "nearest" None None None None (delete "lat" lon_and_lat).
Proof.
  apply (select_explicit_None (G := RectGeometry) unit first_node sel_all).
  left. reflexivity.
Defined.

Lemma select_rejects_path_witness :
  dispatch mesh "nearest" None None (Some three_columns) None ∅ = Raise ValueError.
Proof.
  apply (select_rejects_path (G := RectGeometry) unit first_node sel_all).
  - left. reflexivity.
  - left. reflexivity.
  - right. left. exists [[0]; [0]; [0]]%Q. split; [reflexivity | simpl; lia].
Defined.

Lemma select_method_not_nearest_witness :
  dispatch mesh "linear" None None None None lon_and_lat = Raise NotImplementedError.
Proof.
  apply (select_method_not_nearest (G := RectGeometry) unit first_node sel_all mesh
           "linear" None None lon_and_lat (PyArray [1 # 2]) (PyArray [1 # 2])).
  - split; [reflexivity | discriminate].
  - split; [reflexivity | discriminate].
  - discriminate.
Defined.

Lemma select_like_sel_witness :
  dispatch mesh "nearest" None None None None time_only
  = sel_all mesh (delete "lon" (delete "lat" time_only)) (Some "nearest").
Proof.
  apply (select_like_sel (G := RectGeometry) unit first_node sel_all).
  - left. reflexivity.
  - left. reflexivity.
  - unfold time_only. intros k v Hk.
    apply lookup_singleton_Some in Hk as [_ <-]. reflexivity.
Defined.

Lemma distance_along_trajectory_shape_witness :
  ∃ d, distances (Track three_lons three_lats) = Return [] (Array1 d) ∧ length d = 3%nat.
Proof.
  destruct (distance_along_trajectory_shape one_km) as (Hsame & _ & _).
  apply (Hsame three_lons three_lats). reflexivity.
Defined.

Lemma one_km_nonnegative : ∀ p q, (0 <= one_km p q)%Q.
Proof. intros p q. unfold one_km, Qle. simpl. lia. Defined.

Lemma distances_start_at_zero_and_grow_witness :
  Forall (λ d, starts_at_zero d ∧ nondecreasing d) [[0; 1000; 2000]%Q].
Proof.
  apply (distances_start_at_zero_and_grow one_km (Track three_lons three_lats) []
           (Array1 [0; 1000; 2000]%Q)).
  - exact one_km_nonnegative.
  - reflexivity.
Defined.

Lemma distance_increments_witness :
  track_distances_with add_floor third_of_km three_lons three_lats
  = Return [] [0; 1000 # 3; 666]%Q ∧
  ∃ p q, zip three_lons three_lats !! 1%nat = Some p ∧
         zip three_lons three_lats !! 2%nat = Some q ∧
         (666 = add_floor (1000 # 3) (third_of_km p q))%Q.
Proof.
  split; [reflexivity|].
  destruct (distance_increments third_of_km add_floor three_lons three_lats []
              [0; 1000 # 3; 666]%Q) as (_ & _ & _ & Hstep); [reflexivity|].
  apply (Hstep 0%nat); reflexivity.
Defined.

Lemma distance_prefix_witness :
  distances (Track (firstn 2 three_lons) (firstn 2 three_lats))
  = Return [] (Array1 (firstn 2 [0; 1000; 2000]%Q)).
Proof.
  apply (distance_prefix one_km three_lons three_lats [0; 1000; 2000]%Q 2).
  reflexivity.
Defined.

Lemma normalize_distance_metres_only_if_short_witness :
  normalize_distance (Array1 [5000; 5000; 5000]%Q)
  = ("km", array_map (λ x, x / 1000)%Q (Array1 [5000; 5000; 5000]%Q)).
Proof.
  destruct (normalize_distance_metres_only_if_short (Array1 [5000; 5000; 5000]%Q))
    as [Hfar _].
  apply Hfar. simpl. repeat constructor; unfold Qle; simpl; lia.
Defined.

Lemma select_points_length_mismatch_witness :
  lookup_points mesh three_lons [0%Q] "nearest" None None true ∅ = Raise ValueError.
Proof.
  apply (select_points_length_mismatch unit unit_tree node0 sel_all one_km).
  left. simpl. lia.
Defined.

Lemma select_points_unsupported_witness :
  lookup_points mesh three_lons three_lats "linear" None None true ∅
  = Raise NotImplementedError.
Proof.
  apply (select_points_unsupported unit unit_tree node0 sel_all one_km).
  - split; [reflexivity|]. apply map_Forall_empty.
  - left. discriminate.
Defined.

Lemma select_points_result_witness :
  ∃ res, lookup = Return [] res ∧ faces_coord (selected res) = None ∧
         ∃ unit d, distance res = Some (unit, Array1 d) ∧ length d = 3%nat.
Proof.
  destruct lookup as [e|ws res] eqn:Hlookup; [discriminate Hlookup|].
  pose proof (select_points_result unit unit_tree node0 sel_all one_km mesh three_lons
                three_lats "nearest" None None true ∅ ws res Hlookup)
    as (_ & _ & _ & Hfaces & Hdist).
  assert (ws = []) as -> by (vm_compute in Hlookup; congruence).
  exists res. split; [reflexivity|]. split; [exact Hfaces|].
  destruct (distance res) as [[unit dist]|]; [|discriminate Hdist].
  destruct Hdist as (_ & _ & d & -> & Hd). by exists unit, d.
Defined.




Lemma distance_row_by_row_witness :
  [[0; 1000; 2000]; [0; 0; 0]]%Q !! 1%nat = Some (replicate (length three_lons) 0%Q).
Proof.
  apply (distance_row_by_row one_km [three_lons; three_lons] [three_lats] []
           [[0; 1000; 2000]; [0; 0; 0]]%Q 1 three_lons); reflexivity.
Defined.

End MoreRuns.
